(** * Taxes & Loans API ([backend/main.py]): progressive tax, loan
    amortization and the prepay-versus-invest comparison.

    The calculators are Python functions over [float] (IEEE 754 binary64)
    and [int] (unbounded).  Floats are embedded as Rocq's primitive
    binary64 floats, whose operations are the processor's; integers as [Z].
    Python exceptions are an explicit error result. *)

From Stdlib Require Import ZArith List Bool Lia String Floats.
Import ListNotations.

Set Warnings "-inexact-float".

(** ** Python's numeric operations *)

Module Py.

(** The exceptions the calculators can raise.  [HTTPException] is
    FastAPI's; every other exception escapes the handler and is answered
    with a server error. *)
Inductive exn : Type :=
| ZeroDivisionError
| OverflowError
| ValueError
| TypeError
| HTTPException (status_code : Z) (detail : string).

Inductive res (A : Type) : Type :=
| Ok (a : A)
| Raise (e : exn).
Arguments Ok {A} a.
Arguments Raise {A} e.

Definition bind {A B : Type} (c : res A) (k : A -> res B) : res B :=
  match c with
  | Ok a => k a
  | Raise e => Raise e
  end.

(** A number that reaches a function either as [int] or as [float]
    ([years] is a float in [LoanRequest] and an int in [PrepayScenario]). *)
Inductive num : Type :=
| Int (z : Z)
| Float (f : float).

(** [float(z)] for an int: the nearest binary64, ties to even;
    [OverflowError] when that is not finite. *)
Definition float_of_int (z : Z) : res float :=
  let f := SF2Prim (binary_normalize prec emax z 0 false) in
  if is_infinity f then Raise OverflowError else Ok f.

(** [x / y] on floats: [ZeroDivisionError] on a zero divisor. *)
Definition truediv (x y : float) : res float :=
  if (y =? 0)%float then Raise ZeroDivisionError else Ok (x / y)%float.

(** [x / z] for a float [x] and an int [z]: the int is converted first. *)
Definition truediv_int (x : float) (z : Z) : res float :=
  bind (float_of_int z) (fun y => truediv x y).

(** [x * z] for a float [x] and an int [z]. *)
Definition mul_int (x : float) (z : Z) : res float :=
  bind (float_of_int z) (fun y => Ok (x * y)%float).

(** [max(a, b)] and [min(a, b)]: the first argument unless the second is
    strictly larger (smaller); a NaN second argument is never chosen. *)
Definition max (a b : float) : float := if (a <? b)%float then b else a.
Definition min (a b : float) : float := if (b <? a)%float then b else a.

(** The integer nearest to [a / b], ties to even ([0 <= a], [0 < b]). *)
Definition div_half_even (a b : Z) : Z :=
  let q := (a / b)%Z in
  match (2 * (a mod b) ?= b)%Z with
  | Lt => q
  | Gt => (q + 1)%Z
  | Eq => if Z.even q then q else (q + 1)%Z
  end.

(** The integer nearest to [m * 2^e * scale], ties to even. *)
Definition scaled_half_even (m : positive) (e : Z) (scale : Z) : Z :=
  match e with
  | Zneg p => div_half_even (Zpos m * scale) (Z.pow_pos 2 p)
  | _ => (Zpos m * 2 ^ e * scale)%Z
  end.

(** [round(x)]: the nearest int, ties to even; NaN and the infinities
    raise. *)
Definition round_int (x : float) : res Z :=
  match Prim2SF x with
  | S754_nan => Raise ValueError
  | S754_infinity _ => Raise OverflowError
  | S754_zero _ => Ok 0%Z
  | S754_finite s m e => Ok (cond_Zopp s (scaled_half_even m e 1))
  end.

(** [round(x, ndigits)] for [ndigits >= 0]: CPython prints the exact
    value of [x] to [ndigits] decimals (ties to even) and reads the
    decimal back as the nearest binary64.  NaN, the infinities and the
    zeros round to themselves. *)
Definition round (x : float) (ndigits : positive) : float :=
  match Prim2SF x with
  | S754_finite s m e =>
      let scale := Pos.pow 10 ndigits in
      match scaled_half_even m e (Zpos scale) with
      | Zpos k =>
          SF2Prim (SFdiv prec emax (S754_finite s k 0)
                     (S754_finite false scale 0))
      | _ => SF2Prim (S754_zero s)
      end
  | _ => x
  end.

(** [x ** z] for a float [x] and an int [z].  CPython converts the
    exponent to a float, answers [1.0] for a zero exponent, refuses a zero
    base with a negative exponent, and otherwise calls C's [pow], turning
    an overflow into [OverflowError]; an underflow is silent.  C's [pow]
    on a finite nonzero base is taken to be correctly rounded. *)
Definition pow (x : float) (z : Z) : res float :=
  bind (float_of_int z) (fun w =>
  bind (round_int w) (fun n =>
  if (n =? 0)%Z then Ok 1%float else
  match Prim2SF x with
  | S754_nan => Ok x
  | S754_infinity s =>
      if (0 <? n)%Z then Ok (if Z.odd n then x else abs x)
      else Ok (SF2Prim (S754_zero (s && Z.odd n)))
  | S754_zero s =>
      if (n <? 0)%Z then Raise ZeroDivisionError
      else Ok (SF2Prim (S754_zero (s && Z.odd n)))
  | S754_finite s m e =>
      let k := Z.to_pos (Z.abs n) in
      let sr := s && Z.odd n in
      let r :=
        if (0 <? n)%Z
        then binary_normalize prec emax
               (cond_Zopp sr (Zpos (Pos.pow m k))) (e * n) false
        else SFdiv prec emax (S754_finite sr 1 0)
               (S754_finite false (Pos.pow m k) (e * Zpos k)) in
      match r with
      | S754_infinity _ => Raise OverflowError
      | _ => Ok (SF2Prim r)
      end
  end)).

End Py.

Import Py.

Declare Scope py_scope.
Delimit Scope py_scope with py.
Notation "x <- c ;; k" := (Py.bind c (fun x => k))
  (at level 61, c at next level, right associativity) : py_scope.

Local Open Scope py_scope.

(** ** Tax engine *)

(** A slab is a JSON object, [Dict[str, Optional[float]]]: a key may be
    absent, and a present key may hold [None]. *)
Definition slab : Type := list (string * option float).

Fixpoint dict_get (d : slab) (key : string) : option (option float) :=
  match d with
  | [] => None
  | (k, v) :: d' => if String.eqb k key then Some v else dict_get d' key
  end.

(** [slab.get("upto")]: [None] for an absent key as for a [None] value. *)
Definition slab_upto (s : slab) : option float :=
  match dict_get s "upto" with
  | Some (Some u) => Some u
  | _ => None
  end.

(** [float(slab.get("rate", 0.0))]: the default covers an absent key only;
    [float(None)] raises. *)
Definition slab_rate (s : slab) : res float :=
  match dict_get s "rate" with
  | None => Ok 0%float
  | Some (Some x) => Ok x
  | Some None => Raise TypeError
  end.

Record band_entry : Type := {
  band_from : float;
  band_to : option float;
  taxable : float;
  rate : float;
  tax : float
}.

Record tax_result : Type := {
  tax_due : float;
  breakdown : list band_entry
}.

(** The variables of the loop of [compute_progressive_tax]. *)
Record tax_state : Type := {
  remaining : float;
  prev_cap : float;
  tax_acc : float;
  tax_breakdown : list band_entry
}.

(** One pass through the body of the [for] loop, up to the [break] test. *)
Definition tax_body (s : slab) (st : tax_state) : res tax_state :=
  let upto := slab_upto s in
  rate <- slab_rate s ;;
  let cap := match upto with Some u => u | None => infinity end in
  let band := Py.max 0 (Py.min (cap - st.(prev_cap)) st.(remaining)) in
  let band_tax := (band * rate)%float in
  let entry := {| band_from := st.(prev_cap);
                  band_to := if (cap =? infinity)%float then None else Some cap;
                  taxable := Py.round band 2;
                  rate := rate;
                  tax := Py.round band_tax 2 |} in
  Ok {| remaining := st.(remaining) - band;
        prev_cap := cap;
        tax_acc := st.(tax_acc) + band_tax;
        tax_breakdown := st.(tax_breakdown) ++ [entry] |}.

Fixpoint tax_loop (slabs : list slab) (st : tax_state) : res tax_state :=
  match slabs with
  | [] => Ok st
  | s :: rest =>
      st' <- tax_body s st ;;
      if (st'.(remaining) <=? 0)%float then Ok st' else tax_loop rest st'
  end.

Definition tax_init (taxable_income : float) : tax_state :=
  {| remaining := taxable_income; prev_cap := 0; tax_acc := 0;
     tax_breakdown := [] |}.

Definition compute_progressive_tax (taxable_income : float)
    (slabs : list slab) : res tax_result :=
  st <- tax_loop slabs (tax_init taxable_income) ;;
  Ok {| tax_due := Py.round st.(tax_acc) 2;
        breakdown := st.(tax_breakdown) |}.

(** The default slab table of [TaxRequest]. *)
Definition default_slabs : list slab :=
  [ [("upto"%string, Some 250000%float); ("rate"%string, Some 0%float)];
    [("upto"%string, Some 500000%float); ("rate"%string, Some 0.05%float)];
    [("upto"%string, Some 1000000%float); ("rate"%string, Some 0.20%float)];
    [("upto"%string, None); ("rate"%string, Some 0.30%float)] ].

(** ** Amortization engine *)

Record sched_entry : Type := {
  period : Z;
  entry_payment : float;
  principal_paid : float;
  interest_paid : float;
  remaining_balance : float
}.

Record amort_result : Type := {
  periods : Z;
  payment : float;
  total_interest : float;
  schedule : list sched_entry
}.

(** The variables the [for] loop of [amortization_schedule] updates. *)
Record amort_state : Type := {
  am_payment : float;
  am_balance : float;
  am_total_interest : float;
  am_schedule : list sched_entry
}.

(** [int(round(years * payments_per_year))]. *)
Definition amort_periods (years : num) (payments_per_year : Z) : res Z :=
  match years with
  | Int y => Ok (y * payments_per_year)%Z
  | Float y => prod <- mul_int y payments_per_year ;; round_int prod
  end.

(** Period [i] of the loop, up to the [break] test. *)
Definition amort_body (r : float) (payments_per_year : Z) (i : Z)
    (st : amort_state) : res amort_state :=
  ip <- (if (r =? 0)%float then Ok (0%float, st.(am_payment))
         else
           rp <- truediv_int r payments_per_year ;;
           let interest := (st.(am_balance) * rp)%float in
           Ok (interest, (st.(am_payment) - interest)%float)) ;;
  let interest := fst ip in
  let clamp := (st.(am_balance) <? snd ip)%float in
  let principal_pay := if clamp then st.(am_balance) else snd ip in
  let payment :=
    if clamp then (principal_pay + interest)%float else st.(am_payment) in
  let balance := Py.round (st.(am_balance) - principal_pay) 10 in
  let entry :=
    {| period := i;
       entry_payment := Py.round payment 2;
       principal_paid := Py.round principal_pay 2;
       interest_paid := Py.round interest 2;
       remaining_balance :=
         Py.round (if (0 <? balance)%float then balance else 0%float) 2 |} in
  Ok {| am_payment := payment;
        am_balance := balance;
        am_total_interest := st.(am_total_interest) + interest;
        am_schedule := st.(am_schedule) ++ [entry] |}.

(** [for i in range(i, i + todo)], with the early [break]. *)
Fixpoint amort_loop (r : float) (payments_per_year : Z) (todo : nat) (i : Z)
    (st : amort_state) : res amort_state :=
  match todo with
  | O => Ok st
  | S todo' =>
      st' <- amort_body r payments_per_year i st ;;
      if (st'.(am_balance) <=? 0)%float then Ok st'
      else amort_loop r payments_per_year todo' (i + 1) st'
  end.

Definition amort_init (payment principal : float) : amort_state :=
  {| am_payment := payment; am_balance := principal;
     am_total_interest := 0; am_schedule := [] |}.

(** The fixed payment: [principal / n] at rate zero (the principal itself
    when [n <= 0]), the annuity formula otherwise. *)
Definition amort_payment (principal r : float) (payments_per_year n : Z)
    : res float :=
  if (r =? 0)%float then
    if (0 <? n)%Z then truediv_int principal n else Ok principal
  else
    rp <- truediv_int r payments_per_year ;;
    pw <- Py.pow (1 + rp) (- n) ;;
    truediv (principal * rp) (1 - pw).

Definition amortization_schedule (principal annual_rate_pct : float)
    (years : num) (payments_per_year : Z) : res amort_result :=
  let r := (annual_rate_pct / 100)%float in
  n <- amort_periods years payments_per_year ;;
  payment <- amort_payment principal r payments_per_year n ;;
  st <- amort_loop r payments_per_year (Z.to_nat n) 1
          (amort_init payment principal) ;;
  Ok {| periods := n;
        payment := Py.round st.(am_payment) 2;
        total_interest := Py.round st.(am_total_interest) 2;
        schedule := st.(am_schedule) |}.

(** ** Prepay-versus-invest comparison *)

Record PrepayScenario : Type := {
  req_principal : float;
  req_annual_rate_pct : float;
  req_years : Z;
  req_extra_monthly : float;
  req_payments_per_year : Z;
  req_invest_rate_pct : float;
  req_inflation_pct : float
}.

(** What the request model admits ([Field(..., gt=0)] and the like);
    [inflation_pct] is validated but never read. *)
Definition valid_scenario (req : PrepayScenario) : Prop :=
  (0 <? req.(req_principal))%float = true /\
  (0 <=? req.(req_annual_rate_pct))%float = true /\
  (0 < req.(req_years))%Z /\
  (0 <=? req.(req_extra_monthly))%float = true /\
  (1 <= req.(req_payments_per_year))%Z /\
  (0 <=? req.(req_invest_rate_pct))%float = true /\
  (0 <=? req.(req_inflation_pct))%float = true.

Record with_extra_result : Type := {
  we_payment : float;
  payoff_periods : Z;
  we_total_interest : float;
  schedule_sample : list sched_entry
}.

Record prepay_result : Type := {
  base : amort_result;
  with_extra : with_extra_result;
  payoff_months_equivalent : float;
  interest_saved : float;
  invest_future_value_of_extra : float;
  advice : string
}.

(** The variables of the [while] loop of [prepay_vs_invest]. *)
Record sim_state : Type := {
  sim_payment : float;
  sim_balance : float;
  sim_total_interest : float;
  sim_period : Z;
  sim_schedule : list sched_entry
}.

(** The three characters the source has between "small" and "loan"
    (U+00E2, U+20AC, U+201D: a dash read back in the wrong charset), as
    their UTF-8 bytes. *)
Definition mis_encoded_dash : string :=
  string_of_list_ascii
    (map Ascii.ascii_of_nat
       [195%nat; 162%nat; 226%nat; 130%nat; 172%nat; 226%nat; 128%nat;
        157%nat]).

(** The [detail] of the client error. *)
Definition insufficient_payment_detail : string :=
  String.append "Extra payment too small "
    (String.append mis_encoded_dash
       " loan won't amortize with this payment").

Definition InsufficientPaymentError : exn :=
  HTTPException 400 insufficient_payment_detail.

(** [balance > 0.0001 and period < n_max]. *)
Definition sim_guard (n_max : Z) (st : sim_state) : bool :=
  (0.0001 <? st.(sim_balance))%float && (st.(sim_period) <? n_max)%Z.

(** One pass through the body of the [while] loop. *)
Definition sim_body (rp : float) (st : sim_state) : res sim_state :=
  let period := (st.(sim_period) + 1)%Z in
  let interest := (st.(sim_balance) * rp)%float in
  let principal_paid := (st.(sim_payment) - interest)%float in
  if (principal_paid <=? 0)%float then Raise InsufficientPaymentError
  else
    let clamp := (st.(sim_balance) <? principal_paid)%float in
    let principal_paid := if clamp then st.(sim_balance) else principal_paid in
    let payment :=
      if clamp then (principal_paid + interest)%float else st.(sim_payment) in
    let balance := (st.(sim_balance) - principal_paid)%float in
    let entry :=
      {| period := period;
         entry_payment := Py.round payment 2;
         principal_paid := Py.round principal_paid 2;
         interest_paid := Py.round interest 2;
         remaining_balance := Py.round (Py.max balance 0) 2 |} in
    Ok {| sim_payment := payment;
          sim_balance := balance;
          sim_total_interest := st.(sim_total_interest) + interest;
          sim_period := period;
          sim_schedule := st.(sim_schedule) ++ [entry] |}.

(** The [while] loop; [fuel] bounds the passes still allowed, and
    [n_max - period] passes are always enough (see [sim_loop_fuel]). *)
Fixpoint sim_loop (fuel : nat) (rp : float) (n_max : Z) (st : sim_state)
    : res sim_state :=
  match fuel with
  | O => Ok st
  | S fuel' =>
      if sim_guard n_max st then
        st' <- sim_body rp st ;; sim_loop fuel' rp n_max st'
      else Ok st
  end.

Definition sim_init (payment principal : float) : sim_state :=
  {| sim_payment := payment; sim_balance := principal;
     sim_total_interest := 0; sim_period := 0; sim_schedule := [] |}.

(** [int(req.years * req.payments_per_year * 5)], the safety cap. *)
Definition sim_cap (req : PrepayScenario) : Z :=
  (req.(req_years) * req.(req_payments_per_year) * 5)%Z.

(** The future value of investing [extra_monthly] every month of the
    original term. *)
Definition invest_future_value (req : PrepayScenario) : res float :=
  let invest_r := (req.(req_invest_rate_pct) / 100)%float in
  let monthly_invest_r := (invest_r / 12)%float in
  let months := (req.(req_years) * 12)%Z in
  if (monthly_invest_r =? 0)%float then mul_int req.(req_extra_monthly) months
  else
    pw <- Py.pow (1 + monthly_invest_r) months ;;
    q <- truediv (pw - 1) monthly_invest_r ;;
    Ok (req.(req_extra_monthly) * q)%float.

Definition advice_text : string :=
  "Prepay if interest_saved (after tax) > expected after-tax investment return and you value guaranteed saving; invest if you prefer liquidity and higher expected returns.".

Definition prepay_vs_invest (req : PrepayScenario) : res prepay_result :=
  base <- amortization_schedule req.(req_principal) req.(req_annual_rate_pct)
            (Int req.(req_years)) req.(req_payments_per_year) ;;
  ppy <- float_of_int req.(req_payments_per_year) ;;
  let scaled_extra := (req.(req_extra_monthly) * (ppy / 12))%float in
  let p := req.(req_principal) in
  let r := (req.(req_annual_rate_pct) / 100)%float in
  let n_max := sim_cap req in
  rp <- truediv r ppy ;;
  let payment := (base.(payment) + scaled_extra)%float in
  st <- sim_loop (Z.to_nat n_max) rp n_max (sim_init payment p) ;;
  period <- float_of_int st.(sim_period) ;;
  payoff_months <- truediv period (ppy / 12) ;;
  fv <- invest_future_value req ;;
  let interest_saved :=
    (base.(total_interest) - st.(sim_total_interest))%float in
  Ok {| base := base;
        with_extra :=
          {| we_payment := Py.round st.(sim_payment) 2;
             payoff_periods := st.(sim_period);
             we_total_interest := Py.round st.(sim_total_interest) 2;
             schedule_sample := firstn 6 st.(sim_schedule) |};
        payoff_months_equivalent := Py.round payoff_months 1;
        interest_saved := Py.round interest_saved 2;
        invest_future_value_of_extra := Py.round fv 2;
        advice := advice_text |}.

(** ** Request handlers *)

(** *** [POST /api/tax] *)

Record TaxRequest : Type := {
  treq_annual_income : float;
  treq_deductions : float;
  treq_slabs : list slab
}.

(** What the request model admits: [ge=0] on both amounts. *)
Definition valid_tax_request (req : TaxRequest) : Prop :=
  (0 <=? req.(treq_annual_income))%float = true /\
  (0 <=? req.(treq_deductions))%float = true.

(** The engine's result with the keys that [result.update] adds. *)
Record tax_response : Type := {
  resp_tax_due : float;
  resp_breakdown : list band_entry;
  resp_annual_income : float;
  resp_deductions : float;
  taxable_income : float;
  effective_rate_pct : float
}.

Definition tax_calc (req : TaxRequest) : res tax_response :=
  let taxable :=
    Py.max 0 (req.(treq_annual_income) - req.(treq_deductions)) in
  result <- compute_progressive_tax taxable req.(treq_slabs) ;;
  effective <-
    (if (0 <? req.(treq_annual_income))%float
     then q <- truediv result.(tax_due) req.(treq_annual_income) ;;
          Ok (q * 100)%float
     else Ok 0%float) ;;
  Ok {| resp_tax_due := result.(tax_due);
        resp_breakdown := result.(breakdown);
        resp_annual_income := req.(treq_annual_income);
        resp_deductions := req.(treq_deductions);
        taxable_income := Py.round taxable 2;
        effective_rate_pct := Py.round effective 2 |}.

(** *** [POST /api/loan/amortize] *)

Record LoanRequest : Type := {
  loan_principal : float;
  loan_annual_rate_pct : float;
  loan_years : float;
  loan_payments_per_year : Z
}.

(** What the request model admits. *)
Definition valid_loan_request (req : LoanRequest) : Prop :=
  (0 <? req.(loan_principal))%float = true /\
  (0 <=? req.(loan_annual_rate_pct))%float = true /\
  (0 <? req.(loan_years))%float = true /\
  (1 <= req.(loan_payments_per_year))%Z.

(** The request's fields followed by the engine's ([**res]). *)
Record loan_response : Type := {
  lresp_principal : float;
  lresp_annual_rate_pct : float;
  lresp_years : float;
  lresp_payments_per_year : Z;
  lresp_periods : Z;
  lresp_payment : float;
  lresp_total_interest : float;
  lresp_schedule : list sched_entry
}.

Definition loan_refusal : exn :=
  HTTPException 400 "Principal and years must be > 0".

Definition loan_amortize (req : LoanRequest) : res loan_response :=
  if (req.(loan_principal) <=? 0)%float || (req.(loan_years) <=? 0)%float
  then Raise loan_refusal
  else
    res <- amortization_schedule req.(loan_principal)
             req.(loan_annual_rate_pct) (Float req.(loan_years))
             req.(loan_payments_per_year) ;;
    Ok {| lresp_principal := req.(loan_principal);
          lresp_annual_rate_pct := req.(loan_annual_rate_pct);
          lresp_years := req.(loan_years);
          lresp_payments_per_year := req.(loan_payments_per_year);
          lresp_periods := res.(periods);
          lresp_payment := res.(payment);
          lresp_total_interest := res.(total_interest);
          lresp_schedule := res.(schedule) |}.

(** *** The quiz *)

Record question : Type := {
  q_id : string;
  q_text : string;
  q_choices : list string;
  q_answer : Z;
  q_explanation : string
}.

Definition QUIZ : list question :=
  [ {| q_id := "q1";
       q_text := "Which of these will typically reduce your taxable income?";
       q_choices := [ "Standard deduction / tax-exempt contributions"%string;
                      "Increasing your gross salary"%string;
                      "Ignoring receipts"%string ];
       q_answer := 0;
       q_explanation := "Contributions to certain retirement/savings and allowed deductions reduce taxable income." |};
    {| q_id := "q2";
       q_text := "If you prepay a high-interest credit card, you are:";
       q_choices := [ "Reducing future interest expense"%string;
                      "Increasing interest expense"%string;
                      "Decreasing credit score instantly"%string ];
       q_answer := 0;
       q_explanation := "Paying down high-interest debt reduces interest charges going forward." |};
    {| q_id := "q3";
       q_text := "Loan amortization means:";
       q_choices := [ "Gradually paying principal + interest over time"%string;
                      "A one-time fee"%string;
                      "A tax"%string ];
       q_answer := 0;
       q_explanation := "Amortization is the schedule of paying both interest and principal over time." |} ].

(** A question as [GET /api/quiz] shows it. *)
Record quiz_item : Type := {
  item_id : string;
  item_q : string;
  item_choices : list string
}.

Definition get_quiz_of (quiz : list question) : list quiz_item :=
  map (fun q => {| item_id := q.(q_id); item_q := q.(q_text);
                   item_choices := q.(q_choices) |}) quiz.

Definition get_quiz : list quiz_item := get_quiz_of QUIZ.

(** [QuizAnswer.answers], a [Dict[str, int]]. *)
Definition answer_sheet : Type := list (string * Z).

(** [answers.get(key)]. *)
Fixpoint answers_get (answers : answer_sheet) (key : string) : option Z :=
  match answers with
  | [] => None
  | (k, v) :: rest => if String.eqb k key then Some v else answers_get rest key
  end.

(** [user_choice == q["answer"]]: [None] equals no int. *)
Definition choice_eq (user_choice : option Z) (answer : Z) : bool :=
  match user_choice with
  | Some c => (c =? answer)%Z
  | None => false
  end.

Record feedback_entry : Type := {
  fb_id : string;
  fb_correct : bool;
  fb_explanation : string;
  correct_choice_index : Z
}.

Record quiz_score : Type := {
  score : Z;
  out_of : Z;
  feedback : list feedback_entry
}.

(** The [for] loop of [score_quiz] over the questions still to mark. *)
Fixpoint score_loop (quiz : list question) (answers : answer_sheet)
    (score : Z) (feedback : list feedback_entry)
    : Z * list feedback_entry :=
  match quiz with
  | [] => (score, feedback)
  | q :: rest =>
      let user_choice := answers_get answers q.(q_id) in
      let correct := choice_eq user_choice q.(q_answer) in
      let score := if correct then (score + 1)%Z else score in
      score_loop rest answers score
        (feedback ++
           [{| fb_id := q.(q_id); fb_correct := correct;
               fb_explanation := q.(q_explanation);
               correct_choice_index := q.(q_answer) |}])
  end.

Definition score_quiz_of (quiz : list question) (answers : answer_sheet)
    : quiz_score :=
  let sf := score_loop quiz answers 0 [] in
  {| score := fst sf; out_of := Z.of_nat (List.length quiz);
     feedback := snd sf |}.

Definition score_quiz (answers : answer_sheet) : quiz_score :=
  score_quiz_of QUIZ answers.

(** *** [GET /] *)

Definition root : string * string :=
  ("status"%string, "Taxes & Loans API running"%string).
(** * Notions used in the statements *)

(** ** Binary64 values by their IEEE 754 specification *)

(** [+0.0] or NaN: what [b - b] can be. *)
Definition SFzero_or_nan (x : spec_float) : Prop :=
  x = S754_zero false \/ x = S754_nan.

(** Neither NaN nor negative: a zero of either sign, a positive finite
    number or [+inf], in any representation. *)
Definition SFnonneg (x : spec_float) : bool :=
  match x with
  | S754_zero _ => true
  | S754_infinity s => negb s
  | S754_nan => false
  | S754_finite s _ _ => negb s
  end.

(** Not NaN, and of sign [s] ([true] for minus). *)
Definition SFsigned (s : bool) (x : spec_float) : bool :=
  match x with
  | S754_nan => false
  | S754_zero s' | S754_infinity s' | S754_finite s' _ _ => Bool.eqb s' s
  end.

(** Not an infinity. *)
Definition SFnot_inf (x : spec_float) : Prop :=
  match x with S754_infinity _ => False | _ => True end.

(** A finite number that is not negative: a zero or a positive number. *)
Definition SFfinite_nonneg (x : spec_float) : bool :=
  match x with
  | S754_zero _ | S754_finite false _ _ => true
  | _ => false
  end.

Definition finite_nonneg (x : float) : bool := SFfinite_nonneg (Prim2SF x).

(** A zero of either sign. *)
Definition SFis_zero (x : spec_float) : bool :=
  match x with
  | S754_zero _ => true
  | _ => false
  end.

(** The sum of a list of floats, added left to right. *)
Definition sum_floats (l : list float) : float :=
  fold_left PrimFloat.add l 0%float.

(** ** Exceptions *)

Definition is_http (e : exn) : bool :=
  match e with
  | HTTPException _ _ => true
  | _ => false
  end.

(** [c] raises no [HTTPException]: it returns, or fails with a Python
    built-in exception. *)
Definition builtin_only {A : Type} (c : res A) : Prop :=
  forall e, c = Raise e -> is_http e = false.

(** ** Tax engine *)

(** A slab with both keys present. *)
Definition mk_slab (upto : option float) (rate : float) : slab :=
  [("upto"%string, upto); ("rate"%string, Some rate)].

(** The cap and the band the loop body takes from a slab. *)
Definition slab_cap (s : slab) : float :=
  match slab_upto s with Some u => u | None => infinity end.

Definition band_of (s : slab) (st : tax_state) : float :=
  Py.max 0 (Py.min (slab_cap s - st.(prev_cap)) st.(remaining)).

(** The band that ignores how much income is left: all of the slab. *)
Definition full_band (s : slab) (st : tax_state) : float :=
  Py.max 0 (slab_cap s - st.(prev_cap)).

(** The slab's rate is a number between 0 and 1. *)
Definition rate_in_unit (s : slab) : Prop :=
  exists r, slab_rate s = Ok r /\
            (0 <=? r)%float = true /\ (r <=? 1)%float = true.

(** Two loop states that differ in the remaining income only. *)
Definition same_but_remaining (st1 st2 : tax_state) : Prop :=
  prev_cap st1 = prev_cap st2 /\ tax_acc st1 = tax_acc st2 /\
  tax_breakdown st1 = tax_breakdown st2.

(** Income is left over after the last slab of the table. *)
Definition income_left (income : float) (slabs : list slab) : Prop :=
  exists st, tax_loop slabs (tax_init income) = Ok st /\
             (remaining st <=? 0)%float = false.

(** ** Amortization engine *)

(** A balance as the schedule shows it: never below zero. *)
Definition shown_balance (balance : float) : float :=
  Py.round (if (0 <? balance)%float then balance else 0%float) 2.

(** What a pass of the loop does once the period's interest and the
    principal payment before the clamp are known. *)
Definition amort_update (i : Z) (st : amort_state) (interest pay : float)
    : amort_state :=
  let clamp := (st.(am_balance) <? pay)%float in
  let principal_pay := if clamp then st.(am_balance) else pay in
  let payment :=
    if clamp then (principal_pay + interest)%float else st.(am_payment) in
  let balance := Py.round (st.(am_balance) - principal_pay) 10 in
  {| am_payment := payment;
     am_balance := balance;
     am_total_interest := st.(am_total_interest) + interest;
     am_schedule :=
       st.(am_schedule) ++
         [{| period := i;
             entry_payment := Py.round payment 2;
             principal_paid := Py.round principal_pay 2;
             interest_paid := Py.round interest 2;
             remaining_balance := shown_balance balance |}] |}.

(** [ledger balance pays entries]: starting from [balance], period after
    period pays the (unrounded) principal [pays], never more than is
    outstanding; the entry shows the payment in cents, and the balance
    carried over is the difference rounded to 10 decimals. *)
Fixpoint ledger (balance : float) (pays : list float)
    (entries : list sched_entry) : Prop :=
  match pays, entries with
  | [], [] => True
  | pay :: pays', e :: entries' =>
      let balance' := Py.round (balance - pay) 10 in
      (balance <? pay)%float = false /\
      principal_paid e = Py.round pay 2 /\
      remaining_balance e = shown_balance balance' /\
      ledger balance' pays' entries'
  | _, _ => False
  end.

(** What holds of the loop's variables on a loan at rate zero while it
    runs: no interest so far, and the payment is still [pay0] unless the
    final-period clamp replaced it by a balance [b] below it (plus the zero
    interest), after which the balance can only be NaN. *)
Definition zero_rate_running (pay0 : float) (st : amort_state) : Prop :=
  am_total_interest st = 0%float /\
  Forall (fun e => interest_paid e = 0%float) (am_schedule st) /\
  (am_payment st = pay0 \/
   exists b, (b <? pay0)%float = true /\ am_payment st = (b + 0)%float /\
             Prim2SF (am_balance st) = S754_nan).

(** The same once the loop is over. *)
Definition zero_rate_done (pay0 : float) (st : amort_state) : Prop :=
  am_total_interest st = 0%float /\
  Forall (fun e => interest_paid e = 0%float) (am_schedule st) /\
  (am_payment st = pay0 \/
   exists b, (b <? pay0)%float = true /\ am_payment st = (b + 0)%float).

(** ** Prepay-versus-invest comparison *)

(** [sim_reach rp n_max st st']: the [while] loop started in [st] gets to
    [st'] through passes that all succeed. *)
Inductive sim_reach (rp : float) (n_max : Z) : sim_state -> sim_state -> Prop :=
| sim_reach_here (st : sim_state) : sim_reach rp n_max st st
| sim_reach_pass (st st' st'' : sim_state) :
    sim_guard n_max st = true ->
    sim_body rp st = Ok st' ->
    sim_reach rp n_max st' st'' ->
    sim_reach rp n_max st st''.

(** The payment of the state does not cover the interest its balance
    accrues over one period. *)
Definition interest_not_covered (rp : float) (st : sim_state) : bool :=
  (st.(sim_payment) - st.(sim_balance) * rp <=? 0)%float.

(** The payment the simulation starts with: the baseline's returned
    payment plus the extra, scaled to the payment frequency. *)
Definition constant_payment (req : PrepayScenario) (base : amort_result)
    (ppy : float) : float :=
  (base.(payment) + req.(req_extra_monthly) * (ppy / 12))%float.

Definition sim_start (req : PrepayScenario) (base : amort_result)
    (ppy : float) : sim_state :=
  sim_init (constant_payment req base ppy) req.(req_principal).

(** The baseline, the converted payment frequency and the per-period rate
    that [prepay_vs_invest] computes before it simulates. *)
Definition sim_setup (req : PrepayScenario) (base : amort_result)
    (ppy rp : float) : Prop :=
  amortization_schedule req.(req_principal) req.(req_annual_rate_pct)
    (Int req.(req_years)) req.(req_payments_per_year) = Ok base /\
  float_of_int req.(req_payments_per_year) = Ok ppy /\
  truediv (req.(req_annual_rate_pct) / 100) ppy = Ok rp.

(** What [prepay_vs_invest] does with the state the loop ends in. *)
Definition prepay_summary (req : PrepayScenario) (base : amort_result)
    (ppy : float) (st : sim_state) : res prepay_result :=
  period <- float_of_int st.(sim_period) ;;
  payoff_months <- truediv period (ppy / 12) ;;
  fv <- invest_future_value req ;;
  Ok {| base := base;
        with_extra :=
          {| we_payment := Py.round st.(sim_payment) 2;
             payoff_periods := st.(sim_period);
             we_total_interest := Py.round st.(sim_total_interest) 2;
             schedule_sample := firstn 6 st.(sim_schedule) |};
        payoff_months_equivalent := Py.round payoff_months 1;
        interest_saved :=
          Py.round (base.(total_interest) - st.(sim_total_interest)) 2;
        invest_future_value_of_extra := Py.round fv 2;
        advice := advice_text |}.

(** ** Proof automation *)

Create HintDb builtin.

Ltac sf_cases x :=
  destruct (Prim2SF x) as [[|]|[|]| |[|] ? ?].

Ltac sf_compare := cbv [SFltb SFleb SFeqb SFcompare] in *.


(** ** The tax of a table filled to its caps *)

(** What the engine is compared with when the income goes beyond the
    table.  This is not the engine's loop: it reads no income.  Every slab
    is taken whole, from the cap before it (0 for the first) to its own
    cap, at its own rate, and nothing else is charged. *)
Fixpoint fill_slabs (slabs : list slab) (prev acc : float)
    (entries : list band_entry) : res (float * list band_entry) :=
  match slabs with
  | [] => Ok (acc, entries)
  | s :: rest =>
      rate <- slab_rate s ;;
      let cap := slab_cap s in
      let width := Py.max 0 (cap - prev)%float in
      fill_slabs rest cap (acc + width * rate)%float
        (entries ++
           [{| band_from := prev;
               band_to := if (cap =? infinity)%float then None else Some cap;
               taxable := Py.round width 2;
               rate := rate;
               tax := Py.round (width * rate)%float 2 |}])
  end.

Definition filled_table_tax (slabs : list slab) : res tax_result :=
  filled <- fill_slabs slabs 0 0 [] ;;
  Ok {| tax_due := Py.round (fst filled) 2; breakdown := snd filled |}.

(** ** Notions for the request handlers *)

(** The income is used up by the time the loop is through [slabs]. *)
Definition income_used_up (income : float) (slabs : list slab) : Prop :=
  exists st, tax_loop slabs (tax_init income) = Ok st /\
             (remaining st <=? 0)%float = true.

(** A cap as a breakdown entry shows it in [band_to]. *)
Definition shown_cap (cap : float) : option float :=
  if (cap =? infinity)%float then None else Some cap.

(** The periods [1 .. k]. *)
Definition periods_upto (k : nat) : list Z := map Z.of_nat (seq 1 k).

(** An entry that shows no negative payment toward principal and no
    negative balance. *)
Definition entry_not_negative (e : sched_entry) : Prop :=
  (principal_paid e <? 0)%float = false /\
  (remaining_balance e <? 0)%float = false.

(** The question is answered with its keyed choice. *)
Definition answered_right (answers : answer_sheet) (q : question) : bool :=
  choice_eq (answers_get answers q.(q_id)) q.(q_answer).

(** The feedback entry of a question. *)
Definition marked (answers : answer_sheet) (q : question) : feedback_entry :=
  {| fb_id := q.(q_id);
     fb_correct := answered_right answers q;
     fb_explanation := q.(q_explanation);
     correct_choice_index := q.(q_answer) |}.


(** * Properties *)

(** ** Facts about binary64 arithmetic *)

Section Binary64.

Local Open Scope float_scope.

Lemma Prim2SF_zero : Prim2SF 0 = S754_zero false.
Proof. reflexivity. Qed.

Lemma SFsub_diag (x : spec_float) :
  SFsub prec emax x x =
  match x with
  | S754_infinity _ | S754_nan => S754_nan
  | _ => S754_zero false
  end.
Proof.
  destruct x as [[|]|[|]| |s m e]; try reflexivity.
  unfold SFsub. rewrite Z.sub_diag. reflexivity.
Qed.

Lemma Prim2SF_sub_diag (b : float) : SFzero_or_nan (Prim2SF (b - b)).
Proof.
  rewrite sub_spec. unfold SF64sub. rewrite SFsub_diag.
  destruct (Prim2SF b); unfold SFzero_or_nan; auto.
Qed.

(** [b - b] is [0.0] or NaN, so it is above no non-negative bound. *)
Lemma sub_diag_not_above (c b : float) :
  (0 <=? c) = true -> (c <? b - b) = false.
Proof.
  rewrite leb_spec, ltb_spec, Prim2SF_zero.
  destruct (Prim2SF_sub_diag b) as [-> | ->]; sf_cases c; sf_compare;
    congruence.
Qed.

(** A positive amount that was compared below something is finite, and
    paying all of it leaves nothing. *)
Lemma sub_diag_le_zero (x d : float) :
  (x <? d) = true -> (0 <? x) = true -> (x - x <=? 0) = true.
Proof.
  rewrite !ltb_spec, leb_spec, sub_spec, Prim2SF_zero.
  unfold SF64sub. rewrite SFsub_diag.
  sf_cases x; sf_cases d; sf_compare; congruence.
Qed.

Lemma sub_zero_le_zero (x d : float) :
  (x <? d) = true -> (0 <? x) = false -> (x - 0 <=? 0) = true.
Proof.
  rewrite !ltb_spec, leb_spec, sub_spec, Prim2SF_zero. unfold SF64sub.
  sf_cases x; sf_cases d; simpl; sf_compare; congruence.
Qed.

(** Rounding keeps zeros and NaN as they are. *)
Lemma round_zero_or_nan (x : float) (nd : positive) :
  SFzero_or_nan (Prim2SF x) -> Py.round x nd = x.
Proof. unfold Py.round. intros [-> | ->]; reflexivity. Qed.

(** After the final-period clamp the rounded balance either stops the
    loop or is NaN, which is below nothing. *)
Lemma round_sub_diag (b : float) (nd : positive) :
  (Py.round (b - b) nd <=? 0) = true \/
  Prim2SF (Py.round (b - b) nd) = S754_nan.
Proof.
  pose proof (Prim2SF_sub_diag b) as H.
  rewrite (round_zero_or_nan _ nd H).
  destruct H as [H | H].
  - left. rewrite leb_spec, H. reflexivity.
  - right. exact H.
Qed.

Lemma le_zero_not_pos (x : float) : (x <=? 0) = true -> (0 <? x) = false.
Proof.
  rewrite leb_spec, ltb_spec, Prim2SF_zero.
  sf_cases x; sf_compare; congruence.
Qed.

Lemma Prim2SF_nan_sub (x y : float) :
  Prim2SF x = S754_nan -> Prim2SF (x - y) = S754_nan.
Proof. intros H. rewrite sub_spec, H. reflexivity. Qed.

Lemma Prim2SF_nan_round (x : float) (nd : positive) :
  Prim2SF x = S754_nan -> Prim2SF (Py.round x nd) = S754_nan.
Proof. intros H. unfold Py.round. rewrite H. exact H. Qed.

Lemma Prim2SF_nan_ltb (x y : float) :
  Prim2SF x = S754_nan -> (x <? y) = false.
Proof. intros H. rewrite ltb_spec, H. reflexivity. Qed.

Lemma Prim2SF_nan_leb (x y : float) :
  Prim2SF x = S754_nan -> (x <=? y) = false.
Proof. intros H. rewrite leb_spec, H. reflexivity. Qed.

(** *** Signs of rounded results *)

Lemma shr_1_nonneg (mrs : shr_record) :
  (0 <= shr_m mrs)%Z -> (0 <= shr_m (shr_1 mrs))%Z.
Proof.
  destruct mrs as [m r s]. destruct m as [| p | p]; simpl; intros H;
    try lia; destruct p; simpl; lia.
Qed.

Lemma iter_shr_1_nonneg (p : positive) :
  forall mrs, (0 <= shr_m mrs)%Z -> (0 <= shr_m (iter_pos shr_1 p mrs))%Z.
Proof.
  induction p as [p IH | p IH |]; simpl; intros mrs H.
  - apply IH, IH, shr_1_nonneg, H.
  - apply IH, IH, H.
  - apply shr_1_nonneg, H.
Qed.

Lemma shr_fexp_nonneg (m e : Z) (l : location) :
  (0 <= m)%Z -> (0 <= shr_m (fst (shr_fexp prec emax m e l)))%Z.
Proof.
  intros H. unfold shr_fexp, shr.
  assert (H0 : (0 <= shr_m (shr_record_of_loc m l))%Z)
    by (destruct l as [| []]; exact H).
  destruct (fexp prec emax (Zdigits2 m + e) - e)%Z; simpl; auto.
  apply iter_shr_1_nonneg, H0.
Qed.

Lemma round_nearest_even_nonneg (m : Z) (l : location) :
  (0 <= m)%Z -> (0 <= round_nearest_even m l)%Z.
Proof.
  intros H. destruct l as [| []]; simpl; try destruct (Z.even m); lia.
Qed.

(** Rounding a non-negative mantissa gives a number, of the sign asked. *)
Lemma binary_round_aux_signed (s : bool) (m e : Z) (l : location) :
  (0 <= m)%Z -> SFsigned s (binary_round_aux prec emax s m e l) = true.
Proof.
  intros H. unfold binary_round_aux.
  pose proof (shr_fexp_nonneg m e l H) as H1.
  destruct (shr_fexp prec emax m e l) as [mrs' e']. simpl in H1.
  pose proof (shr_fexp_nonneg _ e' loc_Exact
                (round_nearest_even_nonneg _ (loc_of_shr_record mrs') H1)) as H2.
  destruct (shr_fexp prec emax _ e' loc_Exact) as [mrs'' e'']. simpl in H2.
  destruct (shr_m mrs'') as [| p | p]; simpl.
  - apply Bool.eqb_reflx.
  - destruct (e'' <=? 971)%Z; apply Bool.eqb_reflx.
  - lia.
Qed.

Lemma binary_round_signed (s : bool) (m : positive) (e : Z) :
  SFsigned s (binary_round prec emax s m e) = true.
Proof.
  unfold binary_round. destruct (shl_align m e _) as [mz ez].
  apply binary_round_aux_signed. lia.
Qed.

Lemma SFsigned_nonneg (x : spec_float) :
  SFsigned false x = true -> SFnonneg x = true.
Proof. destruct x as [[|]|[|]| |[|] m e]; simpl; congruence. Qed.

Lemma binary_normalize_nonneg (m e : Z) :
  (0 <= m)%Z -> SFnonneg (binary_normalize prec emax m e false) = true.
Proof.
  intros H. destruct m as [| p | p]; [reflexivity | | lia].
  unfold binary_normalize. apply SFsigned_nonneg, binary_round_signed.
Qed.

Lemma SFldexp_nonneg (x : spec_float) (e : Z) :
  SFnonneg x = true -> SFnonneg (SFldexp prec emax x e) = true.
Proof.
  destruct x as [s | s | | s m ex]; simpl; auto.
  intros H. destruct s; [discriminate |].
  apply SFsigned_nonneg, binary_round_signed.
Qed.

Lemma SFdiv_core_nonneg (m1 m2 : positive) (e1 e2 : Z) :
  (0 <= fst (fst (SFdiv_core_binary prec emax (Zpos m1) e1 (Zpos m2) e2)))%Z.
Proof.
  unfold SFdiv_core_binary.
  set (s := (e1 - e2 - _)%Z).
  set (m' := match s with Zpos _ => Z.shiftl (Zpos m1) s | Z0 => Zpos m1
                     | Zneg _ => 0%Z end).
  assert (Hm : (0 <= m')%Z).
  { unfold m'. destruct s; try lia. apply Z.shiftl_nonneg. lia. }
  pose proof (Z.div_pos m' (Zpos m2) Hm ltac:(lia)) as Hq.
  unfold Z.div in Hq. destruct (Z.div_eucl m' (Zpos m2)) as [q r].
  exact Hq.
Qed.

(** A quotient of two positive numbers is a number that is not negative. *)
Lemma SFdiv_pos_nonneg (m1 m2 : positive) (e1 e2 : Z) :
  SFnonneg (SFdiv prec emax (S754_finite false m1 e1)
              (S754_finite false m2 e2)) = true.
Proof.
  unfold SFdiv.
  pose proof (SFdiv_core_nonneg m1 m2 e1 e2) as H.
  destruct (SFdiv_core_binary prec emax (Zpos m1) e1 (Zpos m2) e2)
    as [[mz ez] lz].
  simpl in H. apply SFsigned_nonneg, binary_round_aux_signed, H.
Qed.

Lemma SFnonneg_leb (x : float) :
  SFnonneg (Prim2SF x) = true <-> (0 <=? x) = true.
Proof.
  rewrite leb_spec, Prim2SF_zero.
  sf_cases x; sf_compare; simpl; split; congruence.
Qed.

(** Reading a specified number that is not negative back as a float. *)
Lemma SF2Prim_nonneg (x : spec_float) :
  SFnonneg x = true -> (0 <=? SF2Prim x) = true.
Proof.
  destruct x as [[|]|[|]| |[|] m e]; simpl; try reflexivity; try discriminate.
  intros _. apply SFnonneg_leb.
  rewrite Z_ldexp_spec. apply SFldexp_nonneg.
  rewrite of_uint63_spec. apply binary_normalize_nonneg.
  apply Uint63.to_Z_bounded.
Qed.

(** [round(x, ndigits)] of a non-negative number is non-negative. *)
Lemma round_nonneg (x : float) (nd : positive) :
  (0 <=? x) = true -> (0 <=? Py.round x nd) = true.
Proof.
  intros H. unfold Py.round.
  destruct (Prim2SF x) as [s | s | | s m e] eqn:E; try exact H.
  assert (s = false) as ->.
  { apply SFnonneg_leb in H. rewrite E in H. destruct s; [discriminate |].
    reflexivity. }
  destruct (scaled_half_even m e _); try reflexivity.
  apply SF2Prim_nonneg, SFdiv_pos_nonneg.
Qed.

Lemma pos_nonneg (x : float) : (0 <? x) = true -> (0 <=? x) = true.
Proof.
  rewrite leb_spec, ltb_spec, Prim2SF_zero.
  sf_cases x; sf_compare; congruence.
Qed.

End Binary64.

(** ** Rounding to binary64 without overflow *)

Section Rounding.

Local Open Scope Z_scope.

Lemma digits2_pos_size (m : positive) : digits2_pos m = Pos.size m.
Proof. induction m as [m IH | m IH |]; simpl; rewrite ?IH; reflexivity. Qed.

Lemma digits2_log2 (m : positive) : Zpos (digits2_pos m) = Z.log2 (Zpos m) + 1.
Proof.
  rewrite digits2_pos_size. destruct m as [m | m |]; simpl; try reflexivity;
    rewrite Pos.add_1_r; reflexivity.
Qed.

Lemma digits2_bounds (m : positive) :
  2 ^ (Zpos (digits2_pos m) - 1) <= Zpos m < 2 ^ Zpos (digits2_pos m).
Proof.
  rewrite digits2_log2.
  pose proof (Z.log2_spec (Zpos m) ltac:(lia)) as H.
  replace (Z.log2 (Zpos m) + 1 - 1) with (Z.log2 (Zpos m)) by lia.
  replace (Z.log2 (Zpos m) + 1) with (Z.succ (Z.log2 (Zpos m))) by lia.
  exact H.
Qed.

(** [Zdigits2 m <= d] as soon as [m < 2^d]. *)
Lemma Zdigits2_le (m d : Z) : 0 <= m -> 0 <= d -> m < 2 ^ d -> Zdigits2 m <= d.
Proof.
  intros Hm Hd H. destruct m as [| p | p]; simpl; try lia.
  rewrite digits2_log2.
  apply Z.log2_lt_pow2 in H; lia.
Qed.

Lemma iter_pos_iter {A : Type} (f : A -> A) (p : positive) :
  forall x, iter_pos f p x = Pos.iter f x p.
Proof.
  induction p as [p IH | p IH |]; intros x; simpl.
  - rewrite !IH. rewrite <- !Pos.iter_swap. reflexivity.
  - rewrite !IH. reflexivity.
  - reflexivity.
Qed.

Lemma shr_1_div2 (mrs : shr_record) :
  0 <= shr_m mrs -> shr_m (shr_1 mrs) = Z.div2 (shr_m mrs).
Proof.
  destruct mrs as [m r s]. destruct m as [| p | p]; simpl; intros H;
    try lia; destruct p; reflexivity.
Qed.

Lemma iter_shr_1_shiftr (p : positive) :
  forall mrs, 0 <= shr_m mrs ->
    shr_m (iter_pos shr_1 p mrs) = Z.shiftr (shr_m mrs) (Zpos p).
Proof.
  intros mrs H. rewrite iter_pos_iter. unfold Z.shiftr, Z.shiftl. simpl.
  revert mrs H. induction p using Pos.peano_ind; intros mrs H.
  - simpl. apply shr_1_div2, H.
  - rewrite !Pos.iter_succ. rewrite shr_1_div2.
    + rewrite IHp by exact H. reflexivity.
    + rewrite IHp by exact H.
      change (Pos.iter Z.div2 (shr_m mrs) p) with (Z.shiftr (shr_m mrs) (Zpos p)).
      apply Z.shiftr_nonneg, H.
Qed.

Lemma shr_fexp_spec (m e : Z) (l : location) :
  0 <= m ->
  let n := fexp prec emax (Zdigits2 m + e) - e in
  shr_m (fst (shr_fexp prec emax m e l)) = (if 0 <? n then m / 2 ^ n else m) /\
  snd (shr_fexp prec emax m e l) = (if 0 <? n then e + n else e).
Proof.
  intros H n. unfold shr_fexp, shr. fold n.
  assert (H0 : shr_m (shr_record_of_loc m l) = m) by (destruct l as [| []]; reflexivity).
  destruct n as [| p | p]; simpl; auto.
  rewrite iter_shr_1_shiftr by lia. rewrite H0.
  rewrite Z.shiftr_div_pow2 by lia. auto.
Qed.

Lemma round_nearest_even_bounds (m : Z) (l : location) :
  m <= round_nearest_even m l <= m + 1.
Proof. destruct l as [| []]; simpl; try destruct (Z.even m); lia. Qed.

Lemma digits2_pos_iter_xO (m k : positive) :
  Zpos (digits2_pos (Pos.iter xO m k)) = Zpos (digits2_pos m) + Zpos k.
Proof.
  induction k using Pos.peano_ind.
  - simpl. lia.
  - rewrite Pos.iter_succ. simpl. lia.
Qed.

Lemma Zpos_iter_xO (m k : positive) :
  Zpos (Pos.iter xO m k) = Zpos m * 2 ^ Zpos k.
Proof.
  induction k using Pos.peano_ind.
  - simpl. lia.
  - rewrite Pos.iter_succ. rewrite Pos2Z.inj_xO, IHk.
    rewrite Pos2Z.inj_succ, Z.pow_succ_r by lia. ring.
Qed.

Lemma fexp_unfold (e : Z) : fexp prec emax e = Z.max (e - 53) (-1074).
Proof. reflexivity. Qed.

(** Rounding [M * 2^ez] does not overflow when it has at most 1024 binary
    digits and, with 1024 of them, its leading 53 are not all ones. *)
Lemma binary_round_no_overflow (s : bool) (M : positive) (ez : Z) :
  Zpos (digits2_pos M) + ez <= 1024 ->
  (Zpos (digits2_pos M) + ez = 1024 ->
   ez <= 971 /\ Zpos M / 2 ^ (971 - ez) + 1 < 2 ^ 53) ->
  SFnot_inf (binary_round prec emax s M ez).
Proof.
  intros HE Htop. unfold binary_round.
  set (d := Zpos (digits2_pos M)) in *.
  set (f := fexp prec emax (d + ez)).
  assert (Hf : f = Z.max (d + ez - 53) (-1074)) by reflexivity.
  pose proof (digits2_bounds M) as HM. fold d in HM.
  assert (Hd : 0 < d) by (unfold d; lia).
  (* the aligned mantissa [mz] at exponent [ez'] *)
  assert (Halign : exists mz ez',
             shl_align M ez f = (mz, ez') /\
             Zpos (digits2_pos mz) + ez' = d + ez /\
             ez' <= f /\
             Zpos mz / 2 ^ (f - ez') < 2 ^ 53 /\
             (f = 971 -> Zpos mz / 2 ^ (f - ez') + 1 < 2 ^ 53)).
  { unfold shl_align. destruct (f - ez) as [| k | k] eqn:Hk.
    - exists M, ez. repeat split; try lia.
      + replace (f - ez) with 0 by lia. rewrite Z.pow_0_r, Z.div_1_r.
        assert (2 ^ d <= 2 ^ 53) by (apply Z.pow_le_mono_r; lia). lia.
      + intros Hf9. destruct Htop as [_ Ht]; [lia |].
        replace (f - ez) with (971 - ez) by lia. exact Ht.
    - exists M, ez. repeat split; try lia.
      + apply Z.div_lt_upper_bound; [apply Z.pow_pos_nonneg; lia |].
        rewrite <- Z.pow_add_r by lia.
        assert (2 ^ d <= 2 ^ (f - ez + 53)) by (apply Z.pow_le_mono_r; lia).
        lia.
      + intros Hf9. destruct Htop as [_ Ht]; [lia |].
        replace (f - ez) with (971 - ez) by lia. exact Ht.
    - exists (Pos.iter xO M k), f. rewrite digits2_pos_iter_xO. fold d.
      repeat split; try lia.
      rewrite Z.sub_diag, Z.pow_0_r, Z.div_1_r, Zpos_iter_xO.
      assert (2 ^ d * 2 ^ Zpos k <= 2 ^ 53).
      { rewrite <- Z.pow_add_r by lia. apply Z.pow_le_mono_r; lia. }
      nia. }
  destruct Halign as (mz & ez' & -> & Hdz & Hle & Hm1 & Hm1').
  unfold binary_round_aux.
  pose proof (shr_fexp_spec (Zpos mz) ez' loc_Exact ltac:(lia)) as [S1m S1e].
  pose proof (shr_fexp_nonneg (Zpos mz) ez' loc_Exact ltac:(lia)) as S1n.
  cbv zeta in S1m, S1e. change (Zdigits2 (Zpos mz)) with (Zpos (digits2_pos mz)) in *.
  rewrite Hdz in S1m, S1e. fold f in S1m, S1e.
  destruct (shr_fexp prec emax (Zpos mz) ez' loc_Exact) as [mrs' e'].
  simpl in S1m, S1e, S1n.
  assert (He' : e' = f) by (destruct (0 <? f - ez') eqn:Hc; [lia | apply Z.ltb_ge in Hc; lia]).
  assert (Hm' : shr_m mrs' = Zpos mz / 2 ^ (f - ez')).
  { destruct (0 <? f - ez') eqn:Hc; [exact S1m |].
    apply Z.ltb_ge in Hc. replace (f - ez') with 0 by lia.
    rewrite Z.pow_0_r, Z.div_1_r. exact S1m. }
  set (m2 := round_nearest_even (shr_m mrs') (loc_of_shr_record mrs')).
  pose proof (round_nearest_even_bounds (shr_m mrs') (loc_of_shr_record mrs')) as Hm2.
  fold m2 in Hm2.
  pose proof (shr_fexp_spec m2 e' loc_Exact ltac:(lia)) as [_ S2e].
  pose proof (shr_fexp_nonneg m2 e' loc_Exact ltac:(lia)) as S2n.
  cbv zeta in S2e.
  destruct (shr_fexp prec emax m2 e' loc_Exact) as [mrs'' e''].
  simpl in S2e, S2n.
  assert (He'' : e'' <= 971).
  { rewrite S2e, fexp_unfold, He'.
    assert (Hdig : Zdigits2 m2 <= 54)
      by (apply Zdigits2_le; [lia | lia | change (2 ^ 54) with (2 * 2 ^ 53); lia]).
    destruct (Z.eq_dec f 971) as [Hf9 | Hf9].
    - assert (Hdig' : Zdigits2 m2 <= 53)
        by (apply Zdigits2_le; [lia | lia | specialize (Hm1' Hf9); lia]).
      match goal with |- context [0 <? ?x] => destruct (0 <? x) eqn:Hc end;
        [apply Z.ltb_lt in Hc |]; lia.
    - match goal with |- context [0 <? ?x] => destruct (0 <? x) eqn:Hc end;
        lia. }
  destruct (shr_m mrs'') as [| p | p]; simpl; auto.
  apply Z.leb_le in He''. change (emax - prec) with 971. rewrite He''. exact I.
Qed.

Lemma bounded_unfold (m : positive) (e : Z) :
  bounded prec emax m e = true ->
  Z.max (Zpos (digits2_pos m) + e - 53) (-1074) = e /\ e <= 971.
Proof.
  unfold bounded, canonical_mantissa. rewrite andb_true_iff, fexp_unfold.
  intros [H1 H2]. apply Z.eqb_eq in H1. apply Z.leb_le in H2.
  change (emax - prec) with 971 in H2. auto.
Qed.

(** Rounding what lies strictly below a binary64 number does not
    overflow. *)
Lemma binary_round_below (s : bool) (mx M : positive) (ex ez : Z) :
  bounded prec emax mx ex = true ->
  ez <= ex ->
  Zpos M < Zpos mx * 2 ^ (ex - ez) ->
  SFnot_inf (binary_round prec emax s M ez).
Proof.
  intros Hb Hez HM. apply bounded_unfold in Hb. destruct Hb as [Hc He].
  pose proof (digits2_bounds mx) as Hx. pose proof (digits2_bounds M) as HMd.
  set (dx := Zpos (digits2_pos mx)) in *. set (d := Zpos (digits2_pos M)) in *.
  assert (Hdx : 0 < dx) by (unfold dx; lia).
  assert (Hd : 0 < d) by (unfold d; lia).
  assert (Hpow : 0 < 2 ^ (ex - ez)) by (apply Z.pow_pos_nonneg; lia).
  assert (Hdd : d <= dx + (ex - ez)).
  { assert (H : 2 ^ (d - 1) < 2 ^ (dx + (ex - ez))).
    { rewrite Z.pow_add_r by lia. nia. }
    apply Z.pow_lt_mono_r_iff in H; lia. }
  apply binary_round_no_overflow; fold d.
  - lia.
  - intros Htop. assert (ex = 971) by lia. assert (dx = 53) by lia. subst ex.
    split; [lia |].
    assert (Zpos M / 2 ^ (971 - ez) < Zpos mx)
      by (apply Z.div_lt_upper_bound; [exact Hpow | lia]).
    replace dx with 53 in Hx by lia. lia.
Qed.

Lemma shl_align_min (m : positive) (e ez : Z) :
  ez <= e -> Zpos (fst (shl_align m e ez)) = Zpos m * 2 ^ (e - ez).
Proof.
  intros H. unfold shl_align. destruct (ez - e) as [| k | k] eqn:Hk; simpl.
  - replace (e - ez) with 0 by lia. rewrite Z.pow_0_r. lia.
  - lia.
  - rewrite Zpos_iter_xO. replace (e - ez) with (Zpos k) by lia. reflexivity.
Qed.

(** The difference of two binary64 numbers of one sign is finite. *)
Lemma SFsub_same_sign_finite (s : bool) (mx my : positive) (ex ey : Z) :
  bounded prec emax mx ex = true ->
  bounded prec emax my ey = true ->
  SFnot_inf (SFsub prec emax (S754_finite s mx ex) (S754_finite s my ey)).
Proof.
  intros Hx Hy. unfold SFsub.
  set (ez := Z.min ex ey).
  pose proof (shl_align_min mx ex ez ltac:(lia)) as Ax.
  pose proof (shl_align_min my ey ez ltac:(lia)) as Ay.
  set (a := Zpos (fst (shl_align mx ex ez))) in *.
  set (b := Zpos (fst (shl_align my ey ez))) in *.
  assert (Ha : 0 < a) by (unfold a; lia).
  assert (Hb : 0 < b) by (unfold b; lia).
  destruct (cond_Zopp s a - cond_Zopp s b) as [| M | M] eqn:HM; simpl; auto.
  - destruct s; unfold cond_Zopp in HM.
    + apply (binary_round_below false my M ey ez Hy); lia.
    + apply (binary_round_below false mx M ex ez Hx); lia.
  - destruct s; unfold cond_Zopp in HM.
    + apply (binary_round_below true mx M ex ez Hx); lia.
    + apply (binary_round_below true my M ey ez Hy); lia.
Qed.

(** Of two binary64 numbers, the one with the smaller exponent, or with
    the same exponent and the smaller mantissa, is the smaller once both
    are aligned. *)
Lemma aligned_le (mx my : positive) (ex ey : Z) :
  bounded prec emax mx ex = true ->
  bounded prec emax my ey = true ->
  ey < ex \/ (ey = ex /\ (my <= mx)%positive) ->
  Zpos my * 2 ^ (ey - Z.min ex ey) <= Zpos mx * 2 ^ (ex - Z.min ex ey).
Proof.
  intros Hx Hy Hle.
  apply bounded_unfold in Hx, Hy. destruct Hx as [Hx _], Hy as [Hy _].
  destruct Hle as [Hlt | [-> Hm]].
  - rewrite Z.min_r by lia. rewrite Z.sub_diag, Z.pow_0_r.
    pose proof (digits2_bounds mx) as Bx. pose proof (digits2_bounds my) as By.
    assert (Dx : Zpos (digits2_pos mx) = 53) by lia.
    assert (Dy : Zpos (digits2_pos my) <= 53) by lia.
    rewrite Dx in Bx. change (2 ^ (53 - 1)) with 4503599627370496 in Bx.
    assert (Hy53 : 2 ^ Zpos (digits2_pos my) <= 2 ^ 53)
      by (apply Z.pow_le_mono_r; lia).
    change (2 ^ 53) with 9007199254740992 in Hy53.
    assert (Hp : 2 ^ 1 <= 2 ^ (ex - ey)) by (apply Z.pow_le_mono_r; lia).
    change (2 ^ 1) with 2 in Hp. nia.
  - rewrite Z.min_id, Z.sub_diag, Z.pow_0_r. lia.
Qed.

Lemma SFleb_finite_pos (mx my : positive) (ex ey : Z) :
  SFleb (S754_finite false my ey) (S754_finite false mx ex) = true ->
  ey < ex \/ (ey = ex /\ (my <= mx)%positive).
Proof.
  cbv [SFleb SFcompare].
  destruct (Z.compare_spec ey ex) as [He | He | He]; try (intros; lia).
  - intros H. right. split; [exact He |].
    change (Pos.compare_cont Eq my mx) with (my ?= mx)%positive in H.
    apply Pos.compare_le_iff. intros Hgt. rewrite Hgt in H. discriminate.
Qed.

Lemma SFleb_finite_neg (mx my : positive) (ex ey : Z) :
  SFleb (S754_finite true my ey) (S754_finite true mx ex) = true ->
  ex < ey \/ (ex = ey /\ (mx <= my)%positive).
Proof.
  cbv [SFleb SFcompare].
  destruct (Z.compare_spec ey ex) as [He | He | He]; try (intros; lia).
  - intros H. right. split; [lia |].
    change (Pos.compare_cont Eq my mx) with (my ?= mx)%positive in H.
    apply Pos.compare_le_iff. intros Hgt.
    rewrite Pos.compare_antisym, Hgt in H. discriminate.
Qed.

(** Subtracting a number from a finite one that is at least as large gives
    a number that is not negative. *)
Lemma SFsub_nonneg_of_le (x y : spec_float) :
  valid_binary x = true ->
  valid_binary y = true ->
  match x with S754_zero _ | S754_finite _ _ _ => True | _ => False end ->
  SFleb y x = true ->
  SFnonneg (SFsub prec emax x y) = true.
Proof.
  intros Vx Vy Fx Hle.
  destruct x as [sx | sx | | sx mx ex]; try contradiction;
    destruct y as [sy | [|] | | sy my ey];
    try (cbv [SFleb SFcompare] in Hle; discriminate);
    try reflexivity.
  - destruct sx, sy; reflexivity.
  - destruct sy; [reflexivity | cbv [SFleb SFcompare] in Hle; discriminate].
  - destruct sx; [cbv [SFleb SFcompare] in Hle; discriminate | reflexivity].
  - simpl in Vx, Vy. unfold SFsub.
    pose proof (shl_align_min mx ex (Z.min ex ey) ltac:(lia)) as Ax.
    pose proof (shl_align_min my ey (Z.min ex ey) ltac:(lia)) as Ay.
    set (a := Zpos (fst (shl_align mx ex (Z.min ex ey)))) in *.
    set (b := Zpos (fst (shl_align my ey (Z.min ex ey)))) in *.
    assert (Hz : 0 <= cond_Zopp sx a - cond_Zopp sy b).
    { destruct sx, sy; unfold cond_Zopp.
      - apply SFleb_finite_neg in Hle.
        pose proof (aligned_le my mx ey ex Vy Vx Hle) as H.
        rewrite Z.min_comm in H. lia.
      - cbv [SFleb SFcompare] in Hle. discriminate.
      - unfold a, b. lia.
      - apply SFleb_finite_pos in Hle.
        pose proof (aligned_le mx my ex ey Vx Vy Hle) as H. lia. }
    destruct (cond_Zopp sx a - cond_Zopp sy b) as [| p | p]; try lia.
    + reflexivity.
    + apply SFsigned_nonneg, binary_round_signed.
Qed.

End Rounding.

(** ** Signs and finiteness of float results *)

Section Binary64Order.

Local Open Scope float_scope.

Lemma Prim2SF_infinity : Prim2SF infinity = S754_infinity false.
Proof. reflexivity. Qed.

Lemma Prim2SF_one : Prim2SF 1 = S754_finite false 4503599627370496 (-52).
Proof. reflexivity. Qed.

Lemma Prim2SF_bounded (x : float) (s : bool) (m : positive) (e : Z) :
  Prim2SF x = S754_finite s m e -> bounded prec emax m e = true.
Proof. intros H. pose proof (Prim2SF_valid x) as V. rewrite H in V. exact V. Qed.

Lemma finite_nonneg_bounds (x : float) :
  (0 <=? x) = true -> (x <? infinity) = true -> finite_nonneg x = true.
Proof.
  unfold finite_nonneg. rewrite leb_spec, ltb_spec, Prim2SF_zero, Prim2SF_infinity.
  sf_cases x; sf_compare; simpl; congruence.
Qed.

Lemma finite_nonneg_leb (x : float) :
  finite_nonneg x = true -> (0 <=? x) = true.
Proof.
  unfold finite_nonneg. rewrite leb_spec, Prim2SF_zero.
  sf_cases x; sf_compare; simpl; congruence.
Qed.

(** A rate between 0 and 1 is a finite number. *)
Lemma rate_finite_nonneg (r : float) :
  (0 <=? r) = true -> (r <=? 1) = true -> finite_nonneg r = true.
Proof.
  unfold finite_nonneg. rewrite !leb_spec, Prim2SF_zero, Prim2SF_one.
  sf_cases r; try reflexivity; cbv [SFleb SFcompare]; congruence.
Qed.

Lemma is_finite_spec (x : float) :
  is_finite x = true ->
  match Prim2SF x with
  | S754_zero _ | S754_finite _ _ _ => True
  | _ => False
  end.
Proof.
  unfold is_finite, is_nan, is_infinity.
  rewrite !eqb_spec, abs_spec, Prim2SF_infinity.
  sf_cases x; sf_compare; simpl; try congruence; auto.
Qed.

Lemma mul_nonneg (a b : float) :
  finite_nonneg a = true -> finite_nonneg b = true -> (0 <=? a * b) = true.
Proof.
  unfold finite_nonneg. intros Ha Hb. apply SFnonneg_leb. rewrite mul_spec.
  destruct (Prim2SF a) as [sa | sa | | [|] ma ea]; try discriminate;
    destruct (Prim2SF b) as [sb | sb | | [|] mb eb]; try discriminate;
    try reflexivity.
  apply SFsigned_nonneg. unfold SF64mul, SFmul.
  apply binary_round_aux_signed. lia.
Qed.

Lemma add_nonneg (a b : float) :
  (0 <=? a) = true -> (0 <=? b) = true -> (0 <=? a + b) = true.
Proof.
  intros Ha Hb. apply SFnonneg_leb in Ha, Hb. apply SFnonneg_leb.
  rewrite add_spec.
  destruct (Prim2SF a) as [sa | [|] | | [|] ma ea]; try discriminate;
    destruct (Prim2SF b) as [sb | [|] | | [|] mb eb]; try discriminate;
    try reflexivity.
  - destruct sa, sb; reflexivity.
  - unfold SF64add, SFadd. unfold cond_Zopp.
    set (z := (Zpos _ + Zpos _)%Z).
    assert (Hz : (0 < z)%Z) by (unfold z; lia).
    destruct z as [| p | p]; try lia.
    apply SFsigned_nonneg, binary_round_signed.
Qed.

(** The band taken from a finite remaining income is finite. *)
Lemma band_finite_nonneg (d rem : float) :
  finite_nonneg rem = true ->
  finite_nonneg (Py.max 0 (Py.min d rem)) = true.
Proof.
  unfold Py.max, Py.min, finite_nonneg. intros Hr.
  destruct (rem <? d) eqn:Hlt.
  - destruct (0 <? rem); [exact Hr | reflexivity].
  - destruct (0 <? d) eqn:Hd; [| reflexivity].
    revert Hlt Hd Hr. rewrite !ltb_spec, Prim2SF_zero.
    sf_cases rem; sf_cases d; sf_compare; simpl; congruence.
Qed.

(** Of two finite non-negative numbers, a difference that is not [<= 0]
    is a finite positive number. *)
Lemma sub_finite_nonneg (a b : float) :
  finite_nonneg a = true -> finite_nonneg b = true ->
  (a - b <=? 0) = false -> finite_nonneg (a - b) = true.
Proof.
  unfold finite_nonneg. rewrite leb_spec, sub_spec, Prim2SF_zero.
  intros Ha Hb.
  destruct (Prim2SF a) as [sa | sa | | [|] ma ea] eqn:Ea; try discriminate;
    destruct (Prim2SF b) as [sb | sb | | [|] mb eb] eqn:Eb; try discriminate;
    try (try destruct sa; try destruct sb; simpl; sf_compare; congruence).
  pose proof (SFsub_same_sign_finite false ma mb ea eb
                (Prim2SF_bounded _ _ _ _ Ea) (Prim2SF_bounded _ _ _ _ Eb)) as Hfin.
  unfold SF64sub. revert Hfin. unfold SFsub, cond_Zopp.
  set (z := (Zpos _ - Zpos _)%Z). destruct z as [| p | p]; simpl.
  - reflexivity.
  - pose proof (binary_round_signed false p (Z.min ea eb)) as Hs.
    destruct (binary_round prec emax false p (Z.min ea eb))
      as [s | s | | [|] m e]; simpl in *; sf_compare; try congruence; tauto.
  - pose proof (binary_round_signed true p (Z.min ea eb)) as Hs.
    destruct (binary_round prec emax true p (Z.min ea eb))
      as [s | s | | [|] m e]; simpl in *; sf_compare; try congruence; tauto.
Qed.

(** Subtracting from a finite number one that is not larger leaves a
    number that is not negative. *)
Lemma sub_nonneg_of_le (x y : float) :
  is_finite x = true -> (y <=? x) = true -> (0 <=? x - y) = true.
Proof.
  intros Hx Hle. apply SFnonneg_leb. rewrite sub_spec.
  apply SFsub_nonneg_of_le.
  - apply Prim2SF_valid.
  - apply Prim2SF_valid.
  - apply is_finite_spec, Hx.
  - rewrite <- leb_spec. exact Hle.
Qed.

(** *** Zeros *)

Lemma eqb_zero_spec (x : float) :
  (x =? 0) = true -> SFis_zero (Prim2SF x) = true.
Proof.
  rewrite eqb_spec, Prim2SF_zero. sf_cases x; sf_compare; simpl; congruence.
Qed.

(** A zero divided by a number that is neither zero nor NaN is a zero. *)
Lemma div_zero (x y : float) :
  SFis_zero (Prim2SF x) = true -> (y =? 0) = false -> (0 <=? y) = true ->
  SFis_zero (Prim2SF (x / y)) = true.
Proof.
  rewrite eqb_spec, leb_spec, div_spec, Prim2SF_zero.
  destruct (Prim2SF x) as [sx | sx | | sx mx ex]; try discriminate.
  intros _. sf_cases y; sf_compare; simpl; congruence.
Qed.

(** A finite number times a zero is a zero, and so is a sum of zeros. *)
Lemma mul_zero (x z : float) :
  SFis_zero (Prim2SF z) = true ->
  match Prim2SF x with S754_zero _ | S754_finite _ _ _ => True | _ => False end ->
  SFis_zero (Prim2SF (x * z)) = true.
Proof.
  rewrite mul_spec.
  destruct (Prim2SF z) as [sz | sz | | sz mz ez]; try discriminate.
  intros _. destruct (Prim2SF x); simpl; tauto.
Qed.

Lemma add_zeros (x y : float) :
  SFis_zero (Prim2SF x) = true -> SFis_zero (Prim2SF y) = true ->
  SFis_zero (Prim2SF (x + y)) = true.
Proof.
  rewrite add_spec.
  destruct (Prim2SF x) as [[|] | sx | | sx mx ex]; try discriminate;
    destruct (Prim2SF y) as [[|] | sy | | sy my ey]; try discriminate;
    reflexivity.
Qed.

(** [0.0] minus a zero is [0.0], which rounds to itself. *)
Lemma round_zero_minus_zero (t : float) (nd : positive) :
  SFis_zero (Prim2SF t) = true -> Py.round (0 - t) nd = 0.
Proof.
  intros Ht.
  assert (H : Prim2SF (0 - t) = S754_zero false).
  { rewrite sub_spec, Prim2SF_zero.
    destruct (Prim2SF t) as [[|] | | |]; try discriminate; reflexivity. }
  rewrite round_zero_or_nan by (left; exact H).
  apply Prim2SF_inj. rewrite H. reflexivity.
Qed.

(** A number above a non-negative bound that is not infinite is a finite
    positive number. *)
Lemma above_bound_finite (c x : float) :
  (0 <=? c) = true -> (c <? x) = true -> SFnot_inf (Prim2SF x) ->
  exists m e, Prim2SF x = S754_finite false m e.
Proof.
  rewrite leb_spec, ltb_spec, Prim2SF_zero.
  sf_cases c; sf_cases x; sf_compare; simpl; try congruence; try tauto;
    intros; eauto.
Qed.

(** What is paid toward principal out of a finite positive balance leaves
    no infinite balance. *)
Lemma balance_not_inf (balance pay : float) (m : positive) (e : Z) :
  Prim2SF balance = S754_finite false m e ->
  (pay <=? 0) = false ->
  SFnot_inf
    (Prim2SF (balance - (if balance <? pay then balance else pay))).
Proof.
  intros Hb Hpay. destruct (balance <? pay) eqn:Hc.
  - destruct (Prim2SF_sub_diag balance) as [-> | ->]; exact I.
  - revert Hpay Hc. rewrite sub_spec, leb_spec, ltb_spec, Prim2SF_zero, Hb.
    destruct (Prim2SF pay) as [sp | sp | | sp mp ep] eqn:Hp.
    + sf_compare. congruence.
    + destruct sp; sf_compare; congruence.
    + intros _ _. exact I.
    + destruct sp; [sf_compare; congruence |]. intros _ _.
      apply SFsub_same_sign_finite.
      * apply (Prim2SF_bounded _ _ _ _ Hb).
      * apply (Prim2SF_bounded _ _ _ _ Hp).
Qed.

End Binary64Order.

(** ** Which exceptions the operations raise *)

Lemma builtin_only_ok {A : Type} (a : A) : builtin_only (Ok a).
Proof. intros e H. discriminate H. Qed.

Lemma builtin_only_bind {A B : Type} (c : res A) (k : A -> res B) :
  builtin_only c -> (forall a, builtin_only (k a)) -> builtin_only (Py.bind c k).
Proof.
  intros Hc Hk e. destruct c as [a | e']; simpl.
  - apply Hk.
  - intros H. injection H as <-. apply Hc. reflexivity.
Qed.

Lemma builtin_only_float_of_int (z : Z) : builtin_only (float_of_int z).
Proof.
  intros e. unfold float_of_int.
  destruct (is_infinity _); intros H; [injection H as <- | discriminate H].
  reflexivity.
Qed.

Lemma builtin_only_truediv (x y : float) : builtin_only (truediv x y).
Proof.
  intros e. unfold truediv.
  destruct (y =? 0)%float; intros H; [injection H as <- | discriminate H].
  reflexivity.
Qed.

Lemma builtin_only_round_int (x : float) : builtin_only (round_int x).
Proof.
  intros e. unfold round_int.
  destruct (Prim2SF x); intros H; try discriminate H; injection H as <-;
    reflexivity.
Qed.

Lemma builtin_only_pow (x : float) (z : Z) : builtin_only (Py.pow x z).
Proof.
  unfold Py.pow.
  apply builtin_only_bind; [apply builtin_only_float_of_int | intros w].
  apply builtin_only_bind; [apply builtin_only_round_int | intros n].
  destruct (n =? 0)%Z; [apply builtin_only_ok |].
  destruct (Prim2SF x) as [s | s | | s m e].
  - destruct (n <? 0)%Z; [| apply builtin_only_ok].
    intros e H. injection H as <-. reflexivity.
  - destruct (0 <? n)%Z; apply builtin_only_ok.
  - apply builtin_only_ok.
  - cbv zeta.
    destruct (if (0 <? n)%Z then _ else _); try apply builtin_only_ok.
    intros e' H. injection H as <-. reflexivity.
Qed.

#[local] Hint Resolve builtin_only_ok builtin_only_float_of_int
  builtin_only_truediv builtin_only_round_int builtin_only_pow : builtin.

Ltac builtin_steps :=
  repeat first
    [ solve [auto with builtin]
    | match goal with
      | |- builtin_only (if ?b then _ else _) => destruct b
      | |- builtin_only (match ?x with Int _ => _ | Float _ => _ end) =>
          destruct x
      end
    | apply builtin_only_bind; [| intro] ].

(** ** Tax engine *)

Section TaxEngine.

Local Open Scope float_scope.

Lemma tax_body_ok (s : slab) (st st' : tax_state) :
  tax_body s st = Ok st' ->
  exists rate,
    slab_rate s = Ok rate /\
    remaining st' = remaining st - band_of s st /\
    prev_cap st' = slab_cap s /\
    tax_acc st' = tax_acc st + band_of s st * rate /\
    tax_breakdown st' =
      tax_breakdown st ++
        [{| band_from := prev_cap st;
            band_to := if slab_cap s =? infinity then None
                       else Some (slab_cap s);
            taxable := Py.round (band_of s st) 2;
            rate := rate;
            tax := Py.round (band_of s st * rate) 2 |}].
Proof.
  unfold tax_body, band_of, slab_cap.
  destruct (slab_rate s) as [rate | e]; simpl; [| discriminate].
  intros H. injection H as <-. exists rate. simpl. auto.
Qed.

(** While income is left after a slab, the slab's band was taken whole. *)
Lemma band_full_when_income_left (s : slab) (st : tax_state) :
  (remaining st - band_of s st <=? 0) = false ->
  band_of s st = full_band s st.
Proof.
  unfold band_of, full_band, Py.max, Py.min.
  set (d := slab_cap s - prev_cap st).
  destruct (remaining st <? d) eqn:Hlt; [| reflexivity].
  destruct (0 <? remaining st) eqn:Hpos; intros H.
  - rewrite (sub_diag_le_zero _ _ Hlt Hpos) in H. discriminate H.
  - rewrite (sub_zero_le_zero _ _ Hlt Hpos) in H. discriminate H.
Qed.

Lemma tax_loop_income_left (slabs : list slab) :
  forall st1 st2 st1' st2',
    same_but_remaining st1 st2 ->
    tax_loop slabs st1 = Ok st1' -> (remaining st1' <=? 0) = false ->
    tax_loop slabs st2 = Ok st2' -> (remaining st2' <=? 0) = false ->
    same_but_remaining st1' st2'.
Proof.
  induction slabs as [| s rest IH]; simpl; intros st1 st2 st1' st2' Hs H1 L1 H2 L2.
  - injection H1 as <-. injection H2 as <-. exact Hs.
  - destruct (tax_body s st1) as [a1 | e1] eqn:B1; simpl in H1; [| discriminate].
    destruct (tax_body s st2) as [a2 | e2] eqn:B2; simpl in H2; [| discriminate].
    destruct (tax_body_ok _ _ _ B1) as (r1 & R1 & Hr1 & Hc1 & Ht1 & Hb1).
    destruct (tax_body_ok _ _ _ B2) as (r2 & R2 & Hr2 & Hc2 & Ht2 & Hb2).
    assert (r2 = r1) as -> by congruence.
    destruct Hs as (Hp & Ha & Hb).
    destruct (remaining a1 <=? 0) eqn:E1;
      [injection H1 as <-; congruence |].
    destruct (remaining a2 <=? 0) eqn:E2;
      [injection H2 as <-; congruence |].
    assert (F1 : band_of s st1 = full_band s st1)
      by (apply band_full_when_income_left; rewrite <- Hr1; exact E1).
    assert (F2 : band_of s st2 = full_band s st2)
      by (apply band_full_when_income_left; rewrite <- Hr2; exact E2).
    assert (Hf : full_band s st1 = full_band s st2)
      by (unfold full_band; rewrite Hp; reflexivity).
    apply (IH a1 a2); auto.
    unfold same_but_remaining.
    rewrite Hc1, Hc2, Ht1, Ht2, Hb1, Hb2, F1, F2, Hf, Hp, Ha, Hb. auto.
Qed.

(** The loop fails on a slab whose rate is [None], and on nothing else. *)
Lemma tax_loop_total (slabs : list slab) :
  Forall (fun s => exists r, slab_rate s = Ok r) slabs ->
  forall st, exists st', tax_loop slabs st = Ok st'.
Proof.
  induction 1 as [| s rest [r Hr] _ IH]; intros st; simpl.
  - eauto.
  - unfold tax_body. rewrite Hr. simpl.
    match goal with |- context [if ?b then _ else _] => destruct b end; eauto.
Qed.

End TaxEngine.

(** ** Tax engine: the claims *)

Section TaxClaims.

Local Open Scope float_scope.

(** C2.  A taxable income of 600000 under the default slab table owes
    32500.0: nothing on the first 250000, 12500 on the next 250000 and
    20000 on the last 100000; the loop stops after the band that uses up
    the income, so the unbounded slab adds no entry. *)
Theorem tax_example_600000 :
  compute_progressive_tax 600000 default_slabs =
  Ok {| tax_due := 32500;
        breakdown :=
          [ {| band_from := 0; band_to := Some 250000; taxable := 250000;
               rate := 0; tax := 0 |};
            {| band_from := 250000; band_to := Some 500000; taxable := 250000;
               rate := 0.05; tax := 12500 |};
            {| band_from := 500000; band_to := Some 1000000; taxable := 100000;
               rate := 0.20; tax := 20000 |} ] |}.
Proof. vm_compute. reflexivity. Qed.

(** The loop keeps the unrounded tax of each band in [tax_acc] and the
    rounded one in the breakdown. *)
Lemma tax_loop_accumulates (slabs : list slab) :
  forall st st',
    tax_loop slabs st = Ok st' ->
    exists band_taxes : list float,
      map tax (tax_breakdown st') =
        map tax (tax_breakdown st) ++ map (fun t => Py.round t 2) band_taxes /\
      tax_acc st' = fold_left PrimFloat.add band_taxes (tax_acc st).
Proof.
  induction slabs as [| s rest IH]; simpl; intros st st' H.
  - injection H as <-. exists []. simpl. rewrite app_nil_r. auto.
  - destruct (tax_body s st) as [a | e] eqn:B; simpl in H; [| discriminate].
    destruct (tax_body_ok _ _ _ B) as (r & _ & _ & _ & Ht & Hb).
    assert (Step : map tax (tax_breakdown a) =
                   map tax (tax_breakdown st) ++
                     map (fun t => Py.round t 2) [band_of s st * r]
                   /\ tax_acc a =
                        fold_left PrimFloat.add [band_of s st * r] (tax_acc st)).
    { rewrite Hb, Ht, map_app. auto. }
    destruct Step as [Sb St].
    destruct (remaining a <=? 0).
    + injection H as <-. eauto.
    + destruct (IH _ _ H) as (ts & Hbs & Hts).
      exists ((band_of s st * r) :: ts). split.
      * rewrite Hbs, Sb. rewrite <- app_assoc. reflexivity.
      * rewrite Hts, St. reflexivity.
Qed.

(** With rates between 0 and 1 and a finite income that is not negative,
    the remaining income stays finite and the accumulated tax stays
    non-negative. *)
Lemma tax_loop_nonneg (slabs : list slab) :
  Forall rate_in_unit slabs ->
  forall st st',
    tax_loop slabs st = Ok st' ->
    finite_nonneg (remaining st) = true ->
    (0 <=? tax_acc st) = true ->
    (0 <=? tax_acc st') = true.
Proof.
  induction 1 as [| s rest (r & Hr & Hr0 & Hr1) _ IH]; simpl;
    intros st st' H Hrem Htax.
  - injection H as <-. exact Htax.
  - destruct (tax_body s st) as [a | e] eqn:B; simpl in H; [| discriminate].
    destruct (tax_body_ok _ _ _ B) as (r' & Hr' & Hrem1 & _ & Htax1 & _).
    assert (r' = r) as -> by congruence.
    assert (Hband : finite_nonneg (band_of s st) = true)
      by (apply band_finite_nonneg, Hrem).
    assert (Htax' : (0 <=? tax_acc a) = true).
    { rewrite Htax1. apply add_nonneg; [exact Htax |].
      apply mul_nonneg; [exact Hband | apply rate_finite_nonneg; assumption]. }
    destruct (remaining a <=? 0) eqn:Hstop.
    + injection H as <-. exact Htax'.
    + apply (IH _ _ H); [| exact Htax'].
      rewrite Hrem1 in *. apply sub_finite_nonneg; assumption.
Qed.

(** C3, as the code has it.  For a finite income that is not negative and
    rates between 0 and 1 the engine returns; [tax_due] is the 2-decimal
    rounding of the sum of the unrounded band taxes, while each breakdown
    entry's [tax] is the 2-decimal rounding of its own band tax, so
    [tax_due] need not be the sum of the entries; and [tax_due >= 0]. *)
Theorem tax_due_rounds_the_sum (income : float) (slabs : list slab) :
  (0 <=? income) = true ->
  (income <? infinity) = true ->
  Forall rate_in_unit slabs ->
  exists res,
    compute_progressive_tax income slabs = Ok res /\
    (exists band_taxes : list float,
        map tax (breakdown res) = map (fun t => Py.round t 2) band_taxes /\
        tax_due res = Py.round (sum_floats band_taxes) 2) /\
    (0 <=? tax_due res) = true.
Proof.
  intros H0 Hfin Hrates.
  assert (Htotal : Forall (fun s => exists r, slab_rate s = Ok r) slabs).
  { apply (Forall_impl _ (P := rate_in_unit)); [| exact Hrates].
    intros s (r & Hr & _). eauto. }
  destruct (tax_loop_total slabs Htotal (tax_init income)) as [st Hst].
  unfold compute_progressive_tax. rewrite Hst. simpl.
  eexists. split; [reflexivity |]. simpl. split.
  - destruct (tax_loop_accumulates _ _ _ Hst) as (ts & Hb & Ht).
    exists ts. simpl in Hb, Ht. rewrite Ht. auto.
  - apply round_nonneg.
    apply (tax_loop_nonneg slabs Hrates _ _ Hst).
    + apply finite_nonneg_bounds; assumption.
    + reflexivity.
Qed.

Lemma tax_due_rounds_the_sum_witness :
  exists res,
    compute_progressive_tax 600000 default_slabs = Ok res /\
    (exists band_taxes : list float,
        map tax (breakdown res) = map (fun t => Py.round t 2) band_taxes /\
        tax_due res = Py.round (sum_floats band_taxes) 2) /\
    (0 <=? tax_due res) = true.
Proof.
  apply (tax_due_rounds_the_sum 600000 default_slabs);
    try reflexivity.
  repeat constructor; eexists; (split; [reflexivity |]); split; reflexivity.
Defined.

(** C3 as stated fails: an income of 2 in two bands of 1 at the rate 0.125
    owes 0.125 in each, shown as 0.12 and 0.12, and 0.25 in all. *)
Lemma tax_due_not_the_sum_of_entries :
  exists res,
    compute_progressive_tax 2 [mk_slab (Some 1) 0.125; mk_slab None 0.125]
      = Ok res /\
    tax_due res = 0.25 /\
    map tax (breakdown res) = [0.12; 0.12] /\
    sum_floats (map tax (breakdown res)) = 0.24 /\
    (tax_due res =? sum_floats (map tax (breakdown res))) = false.
Proof. eexists. split; [vm_compute; reflexivity |]. repeat split. Qed.




(** The filled two-slab table owes 30.0, in two whole bands. *)
Example filled_two_slabs :
  filled_table_tax [mk_slab (Some 100) 0.1; mk_slab (Some 200) 0.2] =
  Ok {| tax_due := 30;
        breakdown :=
          [ {| band_from := 0; band_to := Some 100; taxable := 100;
               rate := 0.1; tax := 10 |};
            {| band_from := 100; band_to := Some 200; taxable := 100;
               rate := 0.2; tax := 20 |} ] |}.
Proof. vm_compute. reflexivity. Qed.

(** The empty table on any income, and the two-slab table on 300 and on
    1000. *)
Example tax_no_slabs (income : float) :
  compute_progressive_tax income [] = Ok {| tax_due := 0; breakdown := [] |}.
Proof. reflexivity. Qed.

Example tax_two_slabs_300_1000 :
  income_left 300 [mk_slab (Some 100) 0.1; mk_slab (Some 200) 0.2] /\
  income_left 1000 [mk_slab (Some 100) 0.1; mk_slab (Some 200) 0.2] /\
  option_map tax_due
    (match compute_progressive_tax 1000
             [mk_slab (Some 100) 0.1; mk_slab (Some 200) 0.2] with
     | Ok res => Some res | Raise _ => None end) = Some 30.
Proof.
  repeat split; try (eexists; split; vm_compute; reflexivity).
Qed.

End TaxClaims.

(** ** Amortization engine *)

Section Amortization.

Local Open Scope float_scope.

Lemma builtin_only_amort_periods (years : num) (ppy : Z) :
  builtin_only (amort_periods years ppy).
Proof. unfold amort_periods, mul_int. builtin_steps. Qed.

Lemma builtin_only_amort_payment (principal r : float) (ppy n : Z) :
  builtin_only (amort_payment principal r ppy n).
Proof. unfold amort_payment, truediv_int. builtin_steps. Qed.

(** A pass of the loop: the interest and the payment toward principal,
    then [amort_update]. *)
Lemma amort_body_ok (r : float) (ppy i : Z) (st st' : amort_state) :
  amort_body r ppy i st = Ok st' ->
  exists interest pay,
    st' = amort_update i st interest pay /\
    ((r =? 0) = true /\ interest = 0 /\ pay = am_payment st \/
     (r =? 0) = false /\
     exists rp, truediv_int r ppy = Ok rp /\
                interest = am_balance st * rp /\
                pay = am_payment st - interest).
Proof.
  unfold amort_body. destruct (r =? 0) eqn:Hr; simpl.
  - intros H. injection H as <-. exists 0, (am_payment st). auto.
  - destruct (truediv_int r ppy) as [rp | e]; simpl; [| discriminate].
    intros H. injection H as <-.
    exists (am_balance st * rp), (am_payment st - am_balance st * rp).
    split; [reflexivity |]. right. eauto.
Qed.

Lemma amort_body_zero_rate (r : float) (ppy i : Z) (st : amort_state) :
  (r =? 0) = true ->
  amort_body r ppy i st = Ok (amort_update i st 0 (am_payment st)).
Proof. intros Hr. unfold amort_body. rewrite Hr. reflexivity. Qed.

Lemma builtin_only_amort_body (r : float) (ppy i : Z) (st : amort_state) :
  builtin_only (amort_body r ppy i st).
Proof. unfold amort_body, truediv_int. builtin_steps. Qed.

Lemma builtin_only_amort_loop (r : float) (ppy : Z) (todo : nat) :
  forall i st, builtin_only (amort_loop r ppy todo i st).
Proof.
  induction todo as [| todo IH]; intros i st; simpl.
  - apply builtin_only_ok.
  - apply builtin_only_bind; [apply builtin_only_amort_body | intros st'].
    destruct (am_balance st' <=? 0); [apply builtin_only_ok | apply IH].
Qed.

Lemma builtin_only_amortization_schedule (principal rate : float)
    (years : num) (ppy : Z) :
  builtin_only (amortization_schedule principal rate years ppy).
Proof.
  unfold amortization_schedule.
  apply builtin_only_bind; [apply builtin_only_amort_periods | intros n].
  apply builtin_only_bind; [apply builtin_only_amort_payment | intros pay].
  apply builtin_only_bind; [apply builtin_only_amort_loop | intros st].
  apply builtin_only_ok.
Qed.

(** The parts of a successful call. *)
Lemma amortization_schedule_ok (principal rate : float) (years : num)
    (ppy : Z) (res : amort_result) :
  amortization_schedule principal rate years ppy = Ok res ->
  exists n pay st,
    amort_periods years ppy = Ok n /\
    amort_payment principal (rate / 100) ppy n = Ok pay /\
    amort_loop (rate / 100) ppy (Z.to_nat n) 1 (amort_init pay principal)
      = Ok st /\
    res = {| periods := n;
             payment := Py.round (am_payment st) 2;
             total_interest := Py.round (am_total_interest st) 2;
             schedule := am_schedule st |}.
Proof.
  unfold amortization_schedule. cbv zeta.
  destruct (amort_periods years ppy) as [n | e]; simpl; [| discriminate].
  destruct (amort_payment _ _ _ n) as [pay | e] eqn:Hpay; simpl;
    [| discriminate].
  destruct (amort_loop _ _ _ _ _) as [st | e] eqn:Hloop; simpl;
    [| discriminate].
  intros H. injection H as <-. exists n, pay, st. auto.
Qed.

(** *** The schedule's length and shown balances *)

(** The loop adds at most [todo] entries; when it adds fewer it stopped at
    a balance that is not positive, which the last entry shows as 0. *)
Lemma amort_loop_length (r : float) (ppy : Z) (todo : nat) :
  forall i st st',
    amort_loop r ppy todo i st = Ok st' ->
    exists added,
      am_schedule st' = am_schedule st ++ added /\
      (List.length added <= todo)%nat /\
      ((List.length added < todo)%nat ->
       exists e, last added e = e /\ In e added /\ remaining_balance e = 0).
Proof.
  induction todo as [| todo IH]; simpl; intros i st st' H.
  - injection H as <-. exists []. rewrite app_nil_r.
    repeat split; auto. simpl. lia.
  - destruct (amort_body r ppy i st) as [a | e] eqn:B; simpl in H;
      [| discriminate].
    destruct (amort_body_ok _ _ _ _ _ B) as (int & pay & -> & _).
    destruct (am_balance (amort_update i st int pay) <=? 0) eqn:Hb.
    + injection H as <-. simpl. eexists [_]. split; [reflexivity |].
      split; [simpl; lia |]. intros _. eexists. split; [reflexivity |].
      split; [left; reflexivity |]. simpl. unfold shown_balance.
      simpl in Hb. rewrite (le_zero_not_pos _ Hb). reflexivity.
    + destruct (IH _ _ _ H) as (added & Hs & Hlen & Hlast).
      simpl in Hs. rewrite <- app_assoc in Hs. simpl in Hs.
      eexists (_ :: added). split; [exact Hs |]. split; [simpl; lia |].
      intros Hlt. simpl in Hlt.
      destruct Hlast as (e & He & Hin & Hz); [lia |].
      exists e. split; [| split; [right; exact Hin | exact Hz]].
      destruct added as [| a' added']; [destruct Hin |]. exact He.
Qed.

Lemma shown_balance_nonneg (balance : float) :
  (0 <=? shown_balance balance) = true.
Proof.
  unfold shown_balance. apply round_nonneg.
  destruct (0 <? balance) eqn:H; [apply pos_nonneg, H | reflexivity].
Qed.

Lemma amort_loop_shown (r : float) (ppy : Z) (todo : nat) :
  forall i st st',
    amort_loop r ppy todo i st = Ok st' ->
    Forall (fun e => (0 <=? remaining_balance e) = true) (am_schedule st) ->
    Forall (fun e => (0 <=? remaining_balance e) = true) (am_schedule st').
Proof.
  induction todo as [| todo IH]; simpl; intros i st st' H Hall.
  - injection H as <-. exact Hall.
  - destruct (amort_body r ppy i st) as [a | e] eqn:B; simpl in H;
      [| discriminate].
    destruct (amort_body_ok _ _ _ _ _ B) as (int & pay & -> & _).
    assert (Hall1 : Forall (fun e => (0 <=? remaining_balance e) = true)
                      (am_schedule (amort_update i st int pay))).
    { simpl. apply Forall_app. split; [exact Hall |].
      constructor; [apply shown_balance_nonneg | constructor]. }
    destruct (am_balance (amort_update i st int pay) <=? 0).
    + injection H as <-. exact Hall1.
    + apply (IH _ _ _ H Hall1).
Qed.

(** *** The ledger of principal payments *)

Lemma amort_loop_ledger (r : float) (ppy : Z) (todo : nat) :
  forall i st st',
    amort_loop r ppy todo i st = Ok st' ->
    exists pays added,
      am_schedule st' = am_schedule st ++ added /\
      ledger (am_balance st) pays added.
Proof.
  induction todo as [| todo IH]; simpl; intros i st st' H.
  - injection H as <-. exists [], []. rewrite app_nil_r. simpl. auto.
  - destruct (amort_body r ppy i st) as [a | e] eqn:B; simpl in H;
      [| discriminate].
    destruct (amort_body_ok _ _ _ _ _ B) as (int & pay & -> & _).
    set (pp := if am_balance st <? pay then am_balance st else pay).
    assert (Hno : (am_balance st <? pp) = false).
    { unfold pp. destruct (am_balance st <? pay) eqn:Hc; [| exact Hc].
      rewrite ltb_spec. sf_cases (am_balance st); sf_compare;
        rewrite ?Z.compare_refl, ?Pos.compare_cont_refl; reflexivity. }
    destruct (am_balance (amort_update i st int pay) <=? 0).
    + injection H as <-. exists [pp]. eexists. split; [reflexivity |].
      simpl. auto.
    + destruct (IH _ _ _ H) as (pays & added & Hs & Hl).
      simpl in Hs. rewrite <- app_assoc in Hs. simpl in Hs.
      exists (pp :: pays). eexists. split; [exact Hs |].
      simpl. auto.
Qed.

End Amortization.

(** ** Amortization engine: the claims *)

Section AmortizationClaims.

Local Open Scope float_scope.

(** *** Zero periods *)

(** C9.  When [round(years * payments_per_year)] is 0 and the rate is not
    zero, the annuity formula divides by [1 - (1 + rp) ** 0 = 0.0] and the
    call raises [ZeroDivisionError]; the guard [n > 0] covers the zero-rate
    branch only, which returns an empty schedule.  The witness is
    years = 0.04 at 12 payments a year and 5 percent. *)
Theorem zero_periods_divide_by_zero (principal rate years : float) (ppy : Z) :
  amort_periods (Float years) ppy = Ok 0%Z ->
  amortization_schedule principal rate (Float years) ppy =
    if rate / 100 =? 0
    then Ok {| periods := 0; payment := Py.round principal 2;
               total_interest := 0; schedule := [] |}
    else Raise ZeroDivisionError.
Proof.
  intros Hn. unfold amortization_schedule. rewrite Hn. simpl.
  unfold amort_payment. destruct (rate / 100 =? 0) eqn:Hr; [reflexivity |].
  unfold amort_periods, mul_int in Hn. unfold truediv_int.
  destruct (float_of_int ppy) as [p | e]; simpl in *; [| discriminate].
  unfold truediv at 1. destruct (p =? 0); [reflexivity |]. simpl.
  reflexivity.
Qed.

Lemma zero_periods_divide_by_zero_witness :
  ((0 <? 1000) = true /\ (0 <? 5) = true /\ (0 <? 0.04) = true /\
   (1 <= 12)%Z) /\
  amortization_schedule 1000 5 (Float 0.04) 12 =
    if 5 / 100 =? 0
    then Ok {| periods := 0; payment := Py.round 1000 2;
               total_interest := 0; schedule := [] |}
    else Raise ZeroDivisionError.
Proof.
  split; [repeat split; lia |].
  apply (zero_periods_divide_by_zero 1000 5 0.04 12). reflexivity.
Defined.

Example zero_periods_example :
  amortization_schedule 1000 5 (Float 0.04) 12 = Raise ZeroDivisionError.
Proof. reflexivity. Qed.

(** *** Rate zero *)

Lemma zero_rate_loop (r : float) (ppy : Z) (pay0 : float) (todo : nat) :
  (r =? 0) = true ->
  forall i st,
    zero_rate_running pay0 st ->
    exists st', amort_loop r ppy todo i st = Ok st' /\ zero_rate_done pay0 st'.
Proof.
  intros Hr. induction todo as [| todo IH]; intros i st (Ht & He & Hp); simpl.
  - exists st. split; [reflexivity |]. split; [exact Ht |]. split; [exact He |].
    destruct Hp as [Hp | (b & Hb & Hp & _)]; [left; exact Hp | right; eauto].
  - rewrite (amort_body_zero_rate r ppy i st Hr). unfold Py.bind.
    set (st1 := amort_update i st 0 (am_payment st)).
    assert (Ht1 : am_total_interest st1 = 0)
      by (simpl; rewrite Ht; reflexivity).
    assert (He1 : Forall (fun e => interest_paid e = 0) (am_schedule st1)).
    { simpl. apply Forall_app. split; [exact He |].
      constructor; [reflexivity | constructor]. }
    destruct Hp as [Hp | (b & Hb & Hp & Hnan)].
    + destruct (am_balance st <? am_payment st) eqn:Hc.
      * assert (Hp1 : am_payment st1 = am_balance st + 0)
          by (simpl; rewrite Hc; reflexivity).
        assert (Hb1 : am_balance st1 =
                      Py.round (am_balance st - am_balance st) 10)
          by (simpl; rewrite Hc; reflexivity).
        rewrite Hp in Hc.
        destruct (round_sub_diag (am_balance st) 10) as [Hz | Hnan];
          [rewrite <- Hb1 in Hz | rewrite <- Hb1 in Hnan].
        -- rewrite Hz. exists st1. split; [reflexivity |].
           repeat split; auto. right. eauto.
        -- rewrite (Prim2SF_nan_leb _ 0 Hnan). apply IH.
           repeat split; auto. right. eauto.
      * assert (Hp1 : am_payment st1 = pay0)
          by (simpl; rewrite Hc; exact Hp).
        destruct (am_balance st1 <=? 0).
        -- exists st1. split; [reflexivity |]. repeat split; auto.
        -- apply IH. repeat split; auto.
    + assert (Hc : (am_balance st <? am_payment st) = false)
        by (apply Prim2SF_nan_ltb, Hnan).
      assert (Hp1 : am_payment st1 = b + 0)
        by (simpl; rewrite Hc; exact Hp).
      assert (Hnan1 : Prim2SF (am_balance st1) = S754_nan).
      { simpl. rewrite Hc. apply Prim2SF_nan_round, Prim2SF_nan_sub, Hnan. }
      rewrite (Prim2SF_nan_leb _ 0 Hnan1). apply IH.
      repeat split; auto. right. eauto.
Qed.

(** C6, as the code has it.  At rate zero, once the period count [n] and
    the payment [pay0] are computed ([pay0] is [principal / n] for
    [n > 0], the principal itself otherwise), the call returns: no interest
    in any period, [total_interest = 0], and a [payment] that is [pay0]
    rounded to 2 decimals, or the 2-decimal rounding of the balance the
    final-period clamp paid off; it is not [principal / n] itself. *)
Theorem zero_rate_schedule (principal rate : float) (years : num)
    (ppy n : Z) (pay0 : float) :
  (rate / 100 =? 0) = true ->
  amort_periods years ppy = Ok n ->
  amort_payment principal (rate / 100) ppy n = Ok pay0 ->
  exists res,
    amortization_schedule principal rate years ppy = Ok res /\
    periods res = n /\
    total_interest res = 0 /\
    Forall (fun e => interest_paid e = 0) (schedule res) /\
    (payment res = Py.round pay0 2 \/
     exists b, (b <? pay0) = true /\ payment res = Py.round (b + 0) 2) /\
    ((0 < n)%Z -> exists nf, float_of_int n = Ok nf /\ pay0 = principal / nf) /\
    ((n <= 0)%Z -> pay0 = principal /\ schedule res = []).
Proof.
  intros Hr Hn Hpay.
  assert (Hinit : zero_rate_running pay0 (amort_init pay0 principal))
    by (repeat split; simpl; auto).
  destruct (zero_rate_loop _ ppy pay0 (Z.to_nat n) Hr 1 _ Hinit)
    as (st & Hloop & Ht & He & Hp).
  unfold amortization_schedule. rewrite Hn. simpl. rewrite Hpay. simpl.
  rewrite Hloop. simpl. eexists. split; [reflexivity |]. simpl.
  split; [reflexivity |]. split; [rewrite Ht; reflexivity |].
  split; [exact He |]. split.
  - destruct Hp as [-> | (b & Hb & ->)]; [left; reflexivity | right; eauto].
  - unfold amort_payment in Hpay. rewrite Hr in Hpay. split.
    + intros Hpos. apply Z.ltb_lt in Hpos. rewrite Hpos in Hpay.
      unfold truediv_int, truediv in Hpay.
      destruct (float_of_int n) as [nf | e]; simpl in Hpay; [| discriminate].
      destruct (nf =? 0); [discriminate |]. injection Hpay as <-. eauto.
    + intros Hle. assert (Hlt : (0 <? n)%Z = false) by (apply Z.ltb_ge, Hle).
      rewrite Hlt in Hpay. injection Hpay as <-. split; [reflexivity |].
      replace (Z.to_nat n) with 0%nat in Hloop by lia. simpl in Hloop.
      injection Hloop as <-. reflexivity.
Qed.

Lemma zero_rate_schedule_witness :
  exists res,
    amortization_schedule 100 0 (Float 1) 3 = Ok res /\
    periods res = 3%Z /\
    total_interest res = 0 /\
    Forall (fun e => interest_paid e = 0) (schedule res) /\
    (payment res = Py.round (100 / 3) 2 \/
     exists b, (b <? 100 / 3) = true /\ payment res = Py.round (b + 0) 2) /\
    ((0 < 3)%Z ->
     exists nf, float_of_int 3 = Ok nf /\ 100 / 3 = 100 / nf) /\
    ((3 <= 0)%Z -> 100 / 3 = 100 /\ schedule res = []).
Proof.
  apply (zero_rate_schedule 100 0 (Float 1) 3 3 (100 / 3)); reflexivity.
Defined.

(** C6 as stated fails: 100 over 3 periods at rate zero returns the payment
    33.33, which is not 100 / 3. *)
Lemma zero_rate_payment_is_rounded :
  exists res,
    amortization_schedule 100 0 (Float 1) 3 = Ok res /\
    periods res = 3%Z /\
    payment res = 33.33 /\
    (payment res =? 100 / 3) = false.
Proof. eexists. split; [vm_compute; reflexivity |]. repeat split. Qed.

(** *** Remaining balances *)

(** C4, as the code has it.  In a returned schedule every
    [remaining_balance] is non-negative; the schedule has at most [periods]
    entries, and when it has fewer it was cut at the period whose balance
    was no longer positive, so its last [remaining_balance] is 0.  A
    schedule of full length promises neither a last balance of 0 nor
    balances that never increase. *)
Theorem schedule_balances (principal rate : float) (years : num) (ppy : Z)
    (res : amort_result) :
  amortization_schedule principal rate years ppy = Ok res ->
  Forall (fun e => (0 <=? remaining_balance e) = true) (schedule res) /\
  (List.length (schedule res) <= Z.to_nat (periods res))%nat /\
  ((List.length (schedule res) < Z.to_nat (periods res))%nat ->
   exists e, last (schedule res) e = e /\ In e (schedule res) /\
             remaining_balance e = 0).
Proof.
  intros H.
  destruct (amortization_schedule_ok _ _ _ _ _ H)
    as (n & pay & st & _ & _ & Hloop & ->).
  simpl. split.
  - apply (amort_loop_shown _ _ _ _ _ _ Hloop). constructor.
  - destruct (amort_loop_length _ _ _ _ _ _ Hloop) as (added & Hs & Hlen & Hl).
    simpl in Hs. rewrite Hs. auto.
Qed.

(** A principal of 1e-11 over 3 periods is cut after the first one. *)
Lemma schedule_balances_witness :
  exists res,
    amortization_schedule 1e-11 0 (Float 3) 1 = Ok res /\
    (List.length (schedule res) < Z.to_nat (periods res))%nat /\
    Forall (fun e => (0 <=? remaining_balance e) = true) (schedule res) /\
    (List.length (schedule res) <= Z.to_nat (periods res))%nat /\
    ((List.length (schedule res) < Z.to_nat (periods res))%nat ->
     exists e, last (schedule res) e = e /\ In e (schedule res) /\
               remaining_balance e = 0).
Proof.
  eexists. split; [vm_compute; reflexivity |].
  split; [vm_compute; lia |].
  apply (schedule_balances 1e-11 0 (Float 3) 1). vm_compute. reflexivity.
Defined.

(** C4 as stated fails.  At 100 percent a year over 60 yearly periods the
    payment equals the interest in binary64 ([1 - 2 ** -60] is [1.0]): all
    60 entries keep the balance 1000 and the last one is not 0.  At 100000
    percent a year over 8 periods the balance rounded to 10 decimals
    exceeds the principal 1.00000000006 and the shown balances grow. *)
Lemma schedule_balances_not_as_claimed :
  (exists res,
     amortization_schedule 1000 100 (Float 60) 1 = Ok res /\
     periods res = 60%Z /\
     map remaining_balance (schedule res) = repeat 1000 60) /\
  (exists res,
     amortization_schedule 1.00000000006 100000 (Float 8) 1 = Ok res /\
     map remaining_balance (schedule res) =
       [1; 1; 1; 1.04; 41.16; 40201.4; 40240601.8; 40280841402.4]).
Proof.
  split; eexists; (split; [vm_compute; reflexivity |]); repeat split.
Qed.

(** *** Principal paid *)

(** C5, as the code has it.  The returned schedule is a ledger that starts
    from the principal: every period pays an amount toward principal that
    is at most the balance outstanding, carries over the difference rounded
    to 10 decimals, and reports the amount paid rounded to 2 decimals on
    its own.  The reported amounts are thus tied to the principal through
    the unrounded ledger, and not by a bound of 0.01 on their sum. *)
Theorem schedule_is_a_ledger (principal rate : float) (years : num)
    (ppy : Z) (res : amort_result) :
  amortization_schedule principal rate years ppy = Ok res ->
  exists pays, ledger principal pays (schedule res).
Proof.
  intros H.
  destruct (amortization_schedule_ok _ _ _ _ _ H)
    as (n & pay & st & _ & _ & Hloop & ->).
  destruct (amort_loop_ledger _ _ _ _ _ _ Hloop) as (pays & added & Hs & Hl).
  simpl in *. rewrite Hs. eauto.
Qed.

Lemma schedule_is_a_ledger_witness :
  exists res,
    amortization_schedule 100 0 (Float 1) 12 = Ok res /\
    exists pays, ledger 100 pays (schedule res).
Proof.
  eexists. split; [vm_compute; reflexivity |].
  apply (schedule_is_a_ledger 100 0 (Float 1) 12). vm_compute. reflexivity.
Defined.

(** C5 as stated fails: 100 over 12 periods at rate zero reports twelve
    payments of 8.33 toward principal, which add up to 99.96. *)
Lemma principal_paid_sum_off_by_four_cents :
  exists res,
    amortization_schedule 100 0 (Float 1) 12 = Ok res /\
    map principal_paid (schedule res) = repeat 8.33 12 /\
    (0.01 <? abs (sum_floats (map principal_paid (schedule res)) - 100)) = true.
Proof. eexists. split; [vm_compute; reflexivity |]. split; reflexivity. Qed.

End AmortizationClaims.

(** ** Prepay-versus-invest comparison *)

Section Comparator.

Local Open Scope float_scope.

Variable rp : float.
Variable n_max : Z.

(** A pass fails exactly when the payment does not cover the interest, and
    then with the client error. *)
Lemma sim_body_raise (st : sim_state) (e : exn) :
  sim_body rp st = Raise e <->
  interest_not_covered rp st = true /\ e = InsufficientPaymentError.
Proof.
  unfold sim_body, interest_not_covered.
  destruct (sim_payment st - sim_balance st * rp <=? 0); split.
  - intros H. injection H as <-. auto.
  - intros [_ ->]. reflexivity.
  - discriminate.
  - intros [H _]. discriminate H.
Qed.

Lemma sim_body_ok (st st' : sim_state) :
  sim_body rp st = Ok st' ->
  interest_not_covered rp st = false /\
  sim_period st' = (sim_period st + 1)%Z /\
  let pay := sim_payment st - sim_balance st * rp in
  if sim_balance st <? pay
  then sim_balance st' = sim_balance st - sim_balance st
  else sim_payment st' = sim_payment st.
Proof.
  unfold sim_body, interest_not_covered.
  destruct (sim_payment st - sim_balance st * rp <=? 0); [discriminate |].
  intros H. injection H as <-. simpl.
  destruct (sim_balance st <? _); auto.
Qed.

Lemma sim_body_fields (st st' : sim_state) :
  sim_body rp st = Ok st' ->
  let interest := sim_balance st * rp in
  let pay := sim_payment st - interest in
  (pay <=? 0) = false /\
  sim_balance st' =
    sim_balance st - (if sim_balance st <? pay then sim_balance st else pay) /\
  sim_total_interest st' = sim_total_interest st + interest.
Proof.
  unfold sim_body.
  destruct (sim_payment st - sim_balance st * rp <=? 0); [discriminate |].
  intros H. injection H as <-. simpl. auto.
Qed.

Lemma sim_reach_stuck (st st' : sim_state) :
  sim_guard n_max st = false -> sim_reach rp n_max st st' -> st' = st.
Proof.
  intros Hg H. destruct H as [st | st st1 st2 Hg' _ _]; [reflexivity |].
  congruence.
Qed.

(** The guard ends the loop once [period] is at the cap, so a fuel of
    [n_max - period] passes is never used up. *)
Lemma sim_guard_cap (st : sim_state) :
  (n_max <= sim_period st)%Z -> sim_guard n_max st = false.
Proof.
  intros H. unfold sim_guard. apply andb_false_iff. right.
  apply Z.ltb_ge, H.
Qed.

Lemma sim_loop_fuel (fuel : nat) :
  forall st,
    (n_max - sim_period st <= Z.of_nat fuel)%Z ->
    sim_loop (S fuel) rp n_max st = sim_loop fuel rp n_max st.
Proof.
  induction fuel as [| fuel IH]; intros st H.
  - simpl. rewrite sim_guard_cap by lia. reflexivity.
  - change (sim_loop (S (S fuel)) rp n_max st)
      with (if sim_guard n_max st
            then Py.bind (sim_body rp st) (sim_loop (S fuel) rp n_max)
            else Ok st).
    change (sim_loop (S fuel) rp n_max st)
      with (if sim_guard n_max st
            then Py.bind (sim_body rp st) (sim_loop fuel rp n_max)
            else Ok st).
    destruct (sim_guard n_max st); [| reflexivity].
    destruct (sim_body rp st) as [st' | e] eqn:B; [| reflexivity].
    simpl. apply IH. destruct (sim_body_ok _ _ B) as (_ & Hp & _). lia.
Qed.

(** The loop raises exactly when a pass it gets to cannot cover the
    interest. *)
Lemma sim_loop_raise (fuel : nat) :
  forall st e,
    (n_max - sim_period st <= Z.of_nat fuel)%Z ->
    sim_loop fuel rp n_max st = Raise e <->
    e = InsufficientPaymentError /\
    exists st', sim_reach rp n_max st st' /\ sim_guard n_max st' = true /\
                interest_not_covered rp st' = true.
Proof.
  induction fuel as [| fuel IH]; intros st e Hfuel; simpl.
  - split; [discriminate |]. intros (_ & st' & Hr & Hg & _).
    rewrite (sim_reach_stuck _ _ (sim_guard_cap st ltac:(lia)) Hr) in Hg.
    rewrite sim_guard_cap in Hg by lia. discriminate.
  - destruct (sim_guard n_max st) eqn:Hg.
    + destruct (sim_body rp st) as [st1 | e1] eqn:B; simpl.
      * destruct (sim_body_ok _ _ B) as (Hc & Hp & _).
        rewrite IH by lia. split.
        -- intros (-> & st' & Hr & Hg' & Hn). split; [reflexivity |].
           exists st'. split; [| auto]. apply (sim_reach_pass _ _ _ _ _ Hg B Hr).
        -- intros (-> & st' & Hr & Hg' & Hn). split; [reflexivity |].
           exists st'. split; [| auto].
           destruct Hr as [st | st sta stb _ Hb Hr]; [congruence |].
           assert (sta = st1) as -> by congruence. exact Hr.
      * apply sim_body_raise in B. destruct B as [Hn ->]. split.
        -- intros H. injection H as <-. split; [reflexivity |].
           exists st. split; [constructor | auto].
        -- intros [-> _]. reflexivity.
    + split; [discriminate |]. intros (_ & st' & Hr & Hg' & _).
      rewrite (sim_reach_stuck _ _ Hg Hr) in Hg'. congruence.
Qed.

(** A loop that returns has got to the state it returns, and has counted
    no further than the cap. *)
Lemma sim_loop_ok (fuel : nat) :
  forall st st',
    sim_loop fuel rp n_max st = Ok st' ->
    sim_reach rp n_max st st' /\
    (sim_period st' <= Z.max (sim_period st) n_max)%Z.
Proof.
  induction fuel as [| fuel IH]; intros st st' H; simpl in H.
  - injection H as <-. split; [constructor | lia].
  - destruct (sim_guard n_max st) eqn:Hg.
    + destruct (sim_body rp st) as [st1 | e1] eqn:B; simpl in H;
        [| discriminate].
      destruct (IH _ _ H) as [Hr Hp].
      destruct (sim_body_ok _ _ B) as (_ & Hp1 & _).
      split; [apply (sim_reach_pass _ _ _ _ _ Hg B Hr) |].
      unfold sim_guard in Hg. apply andb_true_iff in Hg.
      destruct Hg as [_ Hlt]. apply Z.ltb_lt in Hlt. lia.
    + injection H as <-. split; [constructor | lia].
Qed.

(** Until a pass succeeds no more, the payment is the one the loop started
    with: the clamp that changes it leaves a balance of [0.0] or NaN, which
    ends the loop. *)
Lemma sim_reach_payment (st st' : sim_state) :
  sim_reach rp n_max st st' ->
  sim_guard n_max st' = true ->
  sim_payment st' = sim_payment st.
Proof.
  induction 1 as [st | st st1 st2 Hg Hb Hr IH]; intros Hg'; [reflexivity |].
  destruct (sim_body_ok _ _ Hb) as (_ & _ & Hc). cbv zeta in Hc.
  destruct (sim_balance st <? _).
  - assert (Hstop : sim_guard n_max st1 = false).
    { unfold sim_guard. rewrite Hc.
      rewrite sub_diag_not_above by reflexivity. reflexivity. }
    rewrite (sim_reach_stuck _ _ Hstop Hr) in Hg'. congruence.
  - rewrite IH by exact Hg'. exact Hc.
Qed.

(** At a per-period rate of zero a finite balance accrues no interest and
    stays finite, so the interest total stays a zero. *)
Lemma sim_loop_zero_rate (fuel : nat) :
  SFis_zero (Prim2SF rp) = true ->
  forall st st',
    sim_loop fuel rp n_max st = Ok st' ->
    SFnot_inf (Prim2SF (sim_balance st)) ->
    SFis_zero (Prim2SF (sim_total_interest st)) = true ->
    SFis_zero (Prim2SF (sim_total_interest st')) = true.
Proof.
  intros Hrp. induction fuel as [| fuel IH]; intros st st' H Hbal Ht;
    simpl in H.
  - injection H as <-. exact Ht.
  - destruct (sim_guard n_max st) eqn:Hg; [| injection H as <-; exact Ht].
    destruct (sim_body rp st) as [st1 | e] eqn:B; simpl in H; [| discriminate].
    destruct (sim_body_fields _ _ B) as (Hpay & Hb1 & Ht1).
    unfold sim_guard in Hg. apply andb_true_iff in Hg. destruct Hg as [Hg _].
    destruct (above_bound_finite 0.0001 _ eq_refl Hg Hbal) as (m & e & Hfin).
    apply (IH _ _ H).
    + rewrite Hb1. apply (balance_not_inf _ _ m e Hfin Hpay).
    + rewrite Ht1. apply add_zeros; [exact Ht |].
      apply mul_zero; [exact Hrp |]. rewrite Hfin. exact I.
Qed.

End Comparator.

(** ** Prepay-versus-invest comparison: the claims *)

Section ComparatorClaims.

Local Open Scope float_scope.

Lemma builtin_only_invest_future_value (req : PrepayScenario) :
  builtin_only (invest_future_value req).
Proof. unfold invest_future_value, mul_int. builtin_steps. Qed.

(** The parts of a call: the setup, then the loop, then the summary. *)
Lemma prepay_vs_invest_setup (req : PrepayScenario) :
  (exists base ppy rp, sim_setup req base ppy rp) \/
  (exists e, prepay_vs_invest req = Raise e /\ is_http e = false).
Proof.
  unfold sim_setup, prepay_vs_invest.
  destruct (amortization_schedule (req_principal req)
              (req_annual_rate_pct req) (Int (req_years req))
              (req_payments_per_year req)) as [base | e] eqn:Hb.
  - destruct (float_of_int (req_payments_per_year req)) as [ppy | e] eqn:Hp.
    + destruct (truediv (req_annual_rate_pct req / 100) ppy)
        as [rp | e] eqn:Hr.
      * left. exists base, ppy, rp. auto.
      * right. exists e. simpl. rewrite Hr. split; [reflexivity |].
        apply (builtin_only_truediv _ _ _ Hr).
    + right. exists e. split; [reflexivity |].
      apply (builtin_only_float_of_int _ _ Hp).
  - right. exists e. split; [reflexivity |].
    apply (builtin_only_amortization_schedule _ _ _ _ _ Hb).
Qed.

Lemma builtin_only_prepay_summary (req : PrepayScenario)
    (base : amort_result) (ppy : float) (st : sim_state) :
  builtin_only (prepay_summary req base ppy st).
Proof.
  unfold prepay_summary.
  apply builtin_only_bind; [apply builtin_only_float_of_int | intro].
  apply builtin_only_bind; [apply builtin_only_truediv | intro].
  apply builtin_only_bind; [apply builtin_only_invest_future_value | intro].
  apply builtin_only_ok.
Qed.

Lemma prepay_vs_invest_loop (req : PrepayScenario) (base : amort_result)
    (ppy rp : float) :
  sim_setup req base ppy rp ->
  prepay_vs_invest req =
    Py.bind (sim_loop (Z.to_nat (sim_cap req)) rp (sim_cap req)
               (sim_start req base ppy))
      (prepay_summary req base ppy).
Proof.
  intros (Hb & Hp & Hr). unfold prepay_vs_invest.
  rewrite Hb. simpl. rewrite Hp. simpl. rewrite Hr. reflexivity.
Qed.

Lemma prepay_vs_invest_ok (req : PrepayScenario) (res : prepay_result) :
  prepay_vs_invest req = Ok res ->
  exists ppy rp st,
    sim_setup req (base res) ppy rp /\
    sim_loop (Z.to_nat (sim_cap req)) rp (sim_cap req)
      (sim_start req (base res) ppy) = Ok st /\
    payoff_periods (with_extra res) = sim_period st /\
    we_total_interest (with_extra res) = Py.round (sim_total_interest st) 2 /\
    interest_saved res =
      Py.round (total_interest (base res) - sim_total_interest st) 2.
Proof.
  intros H.
  destruct (prepay_vs_invest_setup req) as [(b & ppy & rp & Hs) | (e & He & _)];
    [| congruence].
  rewrite (prepay_vs_invest_loop _ _ _ _ Hs) in H.
  destruct (sim_loop _ _ _ _) as [st | e] eqn:Hl; [| discriminate].
  unfold Py.bind at 1, prepay_summary in H.
  destruct (float_of_int _) as [p | e]; [| discriminate].
  unfold Py.bind at 1 in H.
  destruct (truediv p _) as [m | e]; [| discriminate].
  unfold Py.bind at 1 in H.
  destruct (invest_future_value req) as [fv | e]; [| discriminate].
  unfold Py.bind in H. injection H as <-. exists ppy, rp, st. auto.
Qed.

(** C1.  The comparison fails with [InsufficientPaymentError], the client
    error of status 400, if and only if the setup succeeds and the loop
    gets to a period in which the constant payment (baseline payment plus
    scaled extra) minus the interest accrued on the balance is not
    positive.  It raises no other [HTTPException], and a failure carries no
    result: in particular such a period never lets the call return. *)
Theorem insufficient_payment_iff (req : PrepayScenario) :
  (prepay_vs_invest req = Raise InsufficientPaymentError <->
   exists base ppy rp st,
     sim_setup req base ppy rp /\
     sim_reach rp (sim_cap req) (sim_start req base ppy) st /\
     sim_guard (sim_cap req) st = true /\
     (constant_payment req base ppy - sim_balance st * rp <=? 0) = true) /\
  (forall e, prepay_vs_invest req = Raise e -> is_http e = true ->
             e = HTTPException 400 insufficient_payment_detail).
Proof.
  assert (Hfuel : forall st0 : sim_state,
             sim_period st0 = 0%Z ->
             (sim_cap req - sim_period st0
              <= Z.of_nat (Z.to_nat (sim_cap req)))%Z) by (intros; lia).
  assert (Hraise : forall e, prepay_vs_invest req = Raise e ->
             is_http e = true ->
             e = InsufficientPaymentError /\
             exists base ppy rp st,
               sim_setup req base ppy rp /\
               sim_reach rp (sim_cap req) (sim_start req base ppy) st /\
               sim_guard (sim_cap req) st = true /\
               interest_not_covered rp st = true).
  { intros e H Hh.
    destruct (prepay_vs_invest_setup req)
      as [(b & ppy & rp & Hs) | (e' & He & Hn)]; [| congruence].
    rewrite (prepay_vs_invest_loop _ _ _ _ Hs) in H.
    destruct (sim_loop _ _ _ _) as [st | e1] eqn:Hl; simpl in H.
    - apply builtin_only_prepay_summary in H. congruence.
    - injection H as <-.
      apply sim_loop_raise in Hl; [| apply Hfuel; reflexivity].
      destruct Hl as (-> & st & Hr & Hg & Hn).
      split; [reflexivity |]. exists b, ppy, rp, st. auto. }
  split; [split |].
  - intros H. destruct (Hraise _ H eq_refl)
      as (_ & b & ppy & rp & st & Hs & Hr & Hg & Hn).
    exists b, ppy, rp, st.
    split; [exact Hs |]. split; [exact Hr |]. split; [exact Hg |].
    unfold interest_not_covered in Hn.
    rewrite (sim_reach_payment _ _ _ _ Hr Hg) in Hn. exact Hn.
  - intros (b & ppy & rp & st & Hs & Hr & Hg & Hn).
    rewrite (prepay_vs_invest_loop _ _ _ _ Hs).
    assert (Hl : sim_loop (Z.to_nat (sim_cap req)) rp (sim_cap req)
                   (sim_start req b ppy) = Raise InsufficientPaymentError).
    { apply sim_loop_raise; [apply Hfuel; reflexivity |].
      split; [reflexivity |]. exists st.
      split; [exact Hr |]. split; [exact Hg |].
      unfold interest_not_covered.
      rewrite (sim_reach_payment _ _ _ _ Hr Hg). exact Hn. }
    rewrite Hl. reflexivity.
  - intros e H Hh. apply (Hraise e H Hh).
Qed.

(** A loan whose payment equals its interest in binary64 (100 percent a
    year over 60 years) is refused when nothing extra is paid. *)
Example insufficient_payment_raised :
  prepay_vs_invest
    {| req_principal := 1000; req_annual_rate_pct := 100; req_years := 60;
       req_extra_monthly := 0; req_payments_per_year := 1;
       req_invest_rate_pct := 5; req_inflation_pct := 0 |}
  = Raise InsufficientPaymentError.
Proof. vm_compute. reflexivity. Qed.

(** C8, as the code has it.  A comparison that returns has
    [payoff_periods] at most the safety cap, 5 times the baseline's
    [periods]; it can exceed [periods] itself. *)
Theorem payoff_periods_within_cap (req : PrepayScenario)
    (res : prepay_result) :
  valid_scenario req ->
  prepay_vs_invest req = Ok res ->
  (payoff_periods (with_extra res) <= 5 * periods (base res))%Z.
Proof.
  intros (_ & _ & Hy & _ & Hppy & _) H.
  destruct (prepay_vs_invest_ok _ _ H) as (ppy & rp & st & Hs & Hl & -> & _).
  destruct Hs as (Hb & _ & _).
  destruct (amortization_schedule_ok _ _ _ _ _ Hb)
    as (n & pay & ast & Hn & _ & _ & Hres).
  rewrite Hres. cbn [periods]. simpl in Hn. injection Hn as <-.
  destruct (sim_loop_ok _ _ _ _ _ Hl) as [_ Hp].
  unfold sim_cap, sim_start, sim_init in Hp. simpl in Hp.
  assert (0 <= req_years req * req_payments_per_year req)%Z by nia.
  lia.
Qed.

Lemma payoff_periods_within_cap_witness :
  exists res,
    prepay_vs_invest
      {| req_principal := 100; req_annual_rate_pct := 0; req_years := 1;
         req_extra_monthly := 0.001; req_payments_per_year := 12;
         req_invest_rate_pct := 5; req_inflation_pct := 0 |} = Ok res /\
    (payoff_periods (with_extra res) <= 5 * periods (base res))%Z.
Proof.
  eexists. split; [vm_compute; reflexivity |].
  apply (payoff_periods_within_cap
           {| req_principal := 100; req_annual_rate_pct := 0; req_years := 1;
              req_extra_monthly := 0.001; req_payments_per_year := 12;
              req_invest_rate_pct := 5; req_inflation_pct := 0 |}).
  - unfold valid_scenario. simpl. repeat split; lia.
  - vm_compute. reflexivity.
Defined.

(** C8 as stated fails: the baseline payment 100 / 12 is returned as 8.33,
    and an extra 0.001 a month does not make up for the third of a cent
    lost, so paying 100 off takes 13 periods against the baseline's 12. *)
Lemma payoff_periods_exceed_baseline :
  exists res,
    prepay_vs_invest
      {| req_principal := 100; req_annual_rate_pct := 0; req_years := 1;
         req_extra_monthly := 0.001; req_payments_per_year := 12;
         req_invest_rate_pct := 5; req_inflation_pct := 0 |} = Ok res /\
    (0 <? 0.001) = true /\
    periods (base res) = 12%Z /\
    payoff_periods (with_extra res) = 13%Z.
Proof. eexists. split; [vm_compute; reflexivity |]. repeat split. Qed.

(** The baseline of a zero-rate loan reports no interest. *)
Lemma zero_rate_total_interest (principal rate : float) (years : num)
    (ppy : Z) (res : amort_result) :
  (rate / 100 =? 0) = true ->
  amortization_schedule principal rate years ppy = Ok res ->
  total_interest res = 0.
Proof.
  intros Hr H.
  destruct (amortization_schedule_ok _ _ _ _ _ H)
    as (n & pay & st & _ & _ & Hloop & ->).
  assert (Hinit : zero_rate_running pay (amort_init pay principal))
    by (repeat split; simpl; auto).
  destruct (zero_rate_loop _ ppy pay (Z.to_nat n) Hr 1 _ Hinit)
    as (st' & Hloop' & Ht & _).
  assert (st' = st) as -> by congruence.
  simpl. rewrite Ht. reflexivity.
Qed.

(** The per-period rate of a zero-rate loan is a zero. *)
Lemma zero_rate_per_period (r : float) (z : Z) (ppy rp : float) :
  (r =? 0) = true -> (1 <= z)%Z ->
  float_of_int z = Ok ppy -> truediv r ppy = Ok rp ->
  SFis_zero (Prim2SF rp) = true.
Proof.
  intros Hr Hz Hppy Hrp. unfold truediv in Hrp.
  destruct (ppy =? 0) eqn:Hnz; [discriminate |]. injection Hrp as <-.
  apply div_zero; [apply eqb_zero_spec, Hr | exact Hnz |].
  unfold float_of_int in Hppy.
  destruct (is_infinity _); [discriminate |]. injection Hppy as <-.
  apply SF2Prim_nonneg, binary_normalize_nonneg. lia.
Qed.

End ComparatorClaims.

(** ** More facts about binary64 arithmetic *)

Section Binary64Signs.

Local Open Scope float_scope.

Lemma SFsigned_neg_not_pos (x : spec_float) :
  SFsigned true x = true -> SFltb (S754_zero false) x = false.
Proof. destruct x as [[|]|[|]| |[|] m e]; simpl; sf_compare; congruence. Qed.

(** Subtracting from a number one that is at least as large gives nothing
    positive. *)
Lemma SFsub_not_pos_of_le (x y : spec_float) :
  valid_binary x = true ->
  valid_binary y = true ->
  SFleb x y = true ->
  SFltb (S754_zero false) (SFsub prec emax x y) = false.
Proof.
  intros Vx Vy Hle.
  destruct x as [sx | [|] | | sx mx ex];
    destruct y as [sy | [|] | | sy my ey];
    try (cbv [SFleb SFcompare] in Hle; discriminate);
    try reflexivity.
  - destruct sx, sy; reflexivity.
  - destruct sy; [cbv [SFleb SFcompare] in Hle; discriminate | reflexivity].
  - destruct sx; [reflexivity | cbv [SFleb SFcompare] in Hle; discriminate].
  - simpl in Vx, Vy. unfold SFsub.
    pose proof (shl_align_min mx ex (Z.min ex ey) ltac:(lia)) as Ax.
    pose proof (shl_align_min my ey (Z.min ex ey) ltac:(lia)) as Ay.
    set (a := Zpos (fst (shl_align mx ex (Z.min ex ey)))) in *.
    set (b := Zpos (fst (shl_align my ey (Z.min ex ey)))) in *.
    assert (Hz : (cond_Zopp sx a - cond_Zopp sy b <= 0)%Z).
    { destruct sx, sy; unfold cond_Zopp.
      - apply SFleb_finite_neg in Hle.
        pose proof (aligned_le mx my ex ey Vx Vy) as H.
        assert (G : (ey < ex)%Z \/ ey = ex /\ (my <= mx)%positive)
          by (destruct Hle as [? | [? ?]]; [left; lia | right; split; auto]).
        specialize (H G). lia.
      - unfold a, b. lia.
      - cbv [SFleb SFcompare] in Hle. discriminate.
      - apply SFleb_finite_pos in Hle.
        pose proof (aligned_le my mx ey ex Vy Vx Hle) as H.
        rewrite Z.min_comm in H. lia. }
    destruct (cond_Zopp sx a - cond_Zopp sy b)%Z as [| p | p]; try lia.
    + reflexivity.
    + apply SFsigned_neg_not_pos, binary_round_signed.
Qed.

Lemma sub_not_pos_of_le (x y : float) :
  (x <=? y) = true -> (0 <? x - y) = false.
Proof.
  rewrite leb_spec, ltb_spec, sub_spec, Prim2SF_zero. intros H.
  apply SFsub_not_pos_of_le; auto; apply Prim2SF_valid.
Qed.

Lemma pos_not_le_zero (x : float) : (0 <? x) = true -> (x <=? 0) = false.
Proof.
  rewrite leb_spec, ltb_spec, Prim2SF_zero.
  sf_cases x; sf_compare; congruence.
Qed.

Lemma pos_not_zero (x : float) : (0 <? x) = true -> (x =? 0) = false.
Proof.
  rewrite eqb_spec, ltb_spec, Prim2SF_zero.
  sf_cases x; sf_compare; congruence.
Qed.

Lemma max_zero_nonneg (x : float) : (0 <=? Py.max 0 x) = true.
Proof.
  unfold Py.max. destruct (0 <? x) eqn:H; [apply pos_nonneg, H | reflexivity].
Qed.

(** The part of a finite non-negative amount that exceeds another, or 0. *)
Lemma max_zero_sub_finite (a b : float) :
  finite_nonneg a = true -> finite_nonneg b = true ->
  finite_nonneg (Py.max 0 (a - b)) = true.
Proof.
  intros Ha Hb. unfold Py.max. destruct (0 <? a - b) eqn:H; [| reflexivity].
  apply sub_finite_nonneg; auto. apply pos_not_le_zero, H.
Qed.

(** A non-negative number over a finite positive one is not negative. *)
Lemma div_nonneg (x y : float) :
  (0 <=? x) = true -> (0 <? y) = true -> (y <? infinity) = true ->
  (0 <=? x / y) = true.
Proof.
  intros Hx Hy Hf. apply SFnonneg_leb in Hx. apply SFnonneg_leb.
  revert Hy Hf. rewrite !ltb_spec, div_spec, Prim2SF_zero, Prim2SF_infinity.
  destruct (Prim2SF x) as [sx | [|] | | [|] mx ex]; try discriminate;
    destruct (Prim2SF y) as [sy | [|] | | [|] my ey];
    try (sf_compare; discriminate); try reflexivity.
  intros _ _. apply SFdiv_pos_nonneg.
Qed.

(** A non-negative number times a finite positive one is not negative. *)
Lemma mul_nonneg_pos (x y : float) :
  (0 <=? x) = true -> (0 <? y) = true -> (y <? infinity) = true ->
  (0 <=? x * y) = true.
Proof.
  intros Hx Hy Hf. apply SFnonneg_leb in Hx. apply SFnonneg_leb.
  revert Hy Hf. rewrite !ltb_spec, mul_spec, Prim2SF_zero, Prim2SF_infinity.
  destruct (Prim2SF x) as [sx | [|] | | [|] mx ex]; try discriminate;
    destruct (Prim2SF y) as [sy | [|] | | [|] my ey];
    try (sf_compare; discriminate); try reflexivity.
  intros _ _. apply SFsigned_nonneg. unfold SF64mul, SFmul.
  apply binary_round_aux_signed. lia.
Qed.

(** [0.0] times a finite number that is not negative is a zero, and
    adding a zero to [0.0] leaves [0.0]. *)
Lemma zero_mul_finite (r : float) :
  finite_nonneg r = true -> SFis_zero (Prim2SF (0 * r)) = true.
Proof.
  unfold finite_nonneg. rewrite mul_spec, Prim2SF_zero.
  destruct (Prim2SF r) as [s | s | | [|] m e]; try discriminate; reflexivity.
Qed.

Lemma zero_add_zero (z : float) :
  SFis_zero (Prim2SF z) = true -> 0 + z = 0.
Proof.
  intros H. apply Prim2SF_inj. rewrite add_spec, Prim2SF_zero.
  destruct (Prim2SF z) as [[|] | | |]; try discriminate; reflexivity.
Qed.

Lemma round_is_zero (z : float) (nd : positive) :
  SFis_zero (Prim2SF z) = true -> (Py.round z nd =? 0) = true.
Proof.
  unfold Py.round. rewrite eqb_spec, Prim2SF_zero.
  destruct (Prim2SF z) as [[|] | | |] eqn:E; try discriminate;
    rewrite E; reflexivity.
Qed.

(** [0.0] over a positive number, as a percentage. *)
Lemma zero_share (y : float) : (0 <? y) = true -> 0 / y * 100 = 0.
Proof.
  intros Hy. apply Prim2SF_inj. revert Hy.
  rewrite ltb_spec, mul_spec, div_spec, Prim2SF_zero.
  destruct (Prim2SF y) as [sy | [|] | | [|] my ey];
    try (sf_compare; discriminate); reflexivity.
Qed.

(** The band taken out of no income is [0.0]. *)
Lemma band_of_nothing (d : float) : Py.max 0 (Py.min d 0) = 0.
Proof.
  unfold Py.max, Py.min. destruct (0 <? d) eqn:H; [reflexivity |].
  rewrite H. reflexivity.
Qed.

(** A number that is not [<= 0] rounds to nothing below zero, NaN
    included. *)
Lemma round_not_neg (x : float) (nd : positive) :
  (x <=? 0) = false -> (Py.round x nd <? 0) = false.
Proof.
  intros H.
  destruct (0 <? x) eqn:Hp.
  - pose proof (round_nonneg x nd (pos_nonneg _ Hp)) as Hr.
    revert Hr. rewrite leb_spec, ltb_spec, Prim2SF_zero.
    sf_cases (Py.round x nd); sf_compare; congruence.
  - assert (Hn : Prim2SF x = S754_nan).
    { revert H Hp. rewrite leb_spec, ltb_spec, Prim2SF_zero.
      sf_cases x; sf_compare; congruence. }
    rewrite ltb_spec, Prim2SF_nan_round by exact Hn. reflexivity.
Qed.

Lemma nonneg_not_neg (x : float) : (0 <=? x) = true -> (x <? 0) = false.
Proof.
  rewrite leb_spec, ltb_spec, Prim2SF_zero.
  sf_cases x; sf_compare; congruence.
Qed.

End Binary64Signs.

(** ** Prepay-versus-invest comparison: the interest saved *)

Section InterestSaved.

Local Open Scope float_scope.

Lemma not_infinity_finite (x : float) :
  (0 <=? x) = true -> is_infinity x = false -> (x <? infinity) = true.
Proof.
  unfold is_infinity.
  rewrite leb_spec, ltb_spec, eqb_spec, abs_spec, Prim2SF_zero,
    Prim2SF_infinity.
  sf_cases x; sf_compare; simpl; congruence.
Qed.

Lemma nonneg_nonzero_pos (x : float) :
  (0 <=? x) = true -> (x =? 0) = false -> (0 <? x) = true.
Proof.
  rewrite leb_spec, ltb_spec, eqb_spec, Prim2SF_zero.
  sf_cases x; sf_compare; congruence.
Qed.

Lemma is_zero_eqb (x : float) :
  SFis_zero (Prim2SF x) = true -> (x =? 0) = true.
Proof.
  rewrite eqb_spec, Prim2SF_zero.
  destruct (Prim2SF x) as [[|] | | |]; try discriminate; reflexivity.
Qed.

(** [float(z)] of a positive int is a finite number that is not
    negative. *)
Lemma float_of_int_pos (z : Z) (f : float) :
  (1 <= z)%Z -> float_of_int z = Ok f ->
  (0 <=? f) = true /\ (f <? infinity) = true.
Proof.
  intros Hz H. unfold float_of_int in H. cbv zeta in H.
  destruct (is_infinity _) eqn:Hi; [discriminate |]. injection H as <-.
  assert (H0 : (0 <=? SF2Prim (binary_normalize prec emax z 0 false)) = true)
    by (apply SF2Prim_nonneg, binary_normalize_nonneg; lia).
  split; [exact H0 | apply not_infinity_finite; assumption].
Qed.

(** The per-period rate of a loan whose annual rate is not negative is not
    negative. *)
Lemma per_period_rate_nonneg (rate : float) (z : Z) (ppy rp : float) :
  (0 <=? rate) = true -> (1 <= z)%Z ->
  float_of_int z = Ok ppy -> truediv (rate / 100) ppy = Ok rp ->
  (0 <=? rp) = true.
Proof.
  intros Hr Hz Hppy Hrp. unfold truediv in Hrp.
  destruct (ppy =? 0) eqn:Hnz; [discriminate |]. injection Hrp as <-.
  destruct (float_of_int_pos _ _ Hz Hppy) as [H0 Hfin].
  apply div_nonneg.
  - apply div_nonneg; [exact Hr | reflexivity | reflexivity].
  - apply nonneg_nonzero_pos; assumption.
  - exact Hfin.
Qed.

(** A finite positive balance accrues no negative interest. *)
Lemma mul_pos_nonneg (a b : float) (m : positive) (e : Z) :
  Prim2SF a = S754_finite false m e -> (0 <=? b) = true ->
  (0 <=? a * b) = true.
Proof.
  intros Ha Hb. apply SFnonneg_leb in Hb. apply SFnonneg_leb.
  rewrite mul_spec, Ha.
  destruct (Prim2SF b) as [sb | [|] | | [|] mb eb]; try discriminate;
    try reflexivity.
  apply SFsigned_nonneg. unfold SF64mul, SFmul.
  apply binary_round_aux_signed. lia.
Qed.

(** At a per-period rate that is not negative, the interest the loop adds
    up on a finite balance is never negative. *)
Lemma sim_loop_interest_nonneg (rp : float) (n_max : Z) (fuel : nat) :
  (0 <=? rp) = true ->
  forall st st',
    sim_loop fuel rp n_max st = Ok st' ->
    SFnot_inf (Prim2SF (sim_balance st)) ->
    (0 <=? sim_total_interest st) = true ->
    (0 <=? sim_total_interest st') = true.
Proof.
  intros Hrp. induction fuel as [| fuel IH]; intros st st' H Hbal Ht;
    simpl in H.
  - injection H as <-. exact Ht.
  - destruct (sim_guard n_max st) eqn:Hg; [| injection H as <-; exact Ht].
    destruct (sim_body rp st) as [st1 | e] eqn:B; simpl in H; [| discriminate].
    destruct (sim_body_fields _ _ _ B) as (Hpay & Hb1 & Ht1).
    unfold sim_guard in Hg. apply andb_true_iff in Hg. destruct Hg as [Hg _].
    destruct (above_bound_finite 0.0001 _ eq_refl Hg Hbal) as (m & e & Hfin).
    apply (IH _ _ H).
    + rewrite Hb1. apply (balance_not_inf _ _ m e Hfin Hpay).
    + rewrite Ht1. apply add_nonneg; [exact Ht |].
      apply (mul_pos_nonneg _ _ m e Hfin Hrp).
Qed.

(** C7, as the code has it.  For a valid request with a finite principal
    that is answered, the interest [T] that the simulation adds up, period
    by period, is not negative, and neither is the [total_interest] it
    reports; [interest_saved] is the 2-decimal rounding of the baseline's
    reported [total_interest] minus [T].  On a zero-rate loan both totals
    are zero and [interest_saved] is exactly 0.0.  At other rates the code
    guarantees no sign: a positive [extra_monthly] and a sufficient payment
    do not make [interest_saved] non-negative. *)
Theorem interest_saved_sign (req : PrepayScenario) (res : prepay_result) :
  valid_scenario req ->
  (req_principal req <? infinity) = true ->
  prepay_vs_invest req = Ok res ->
  exists T : float,
    (0 <=? T) = true /\
    we_total_interest (with_extra res) = Py.round T 2 /\
    (0 <=? we_total_interest (with_extra res)) = true /\
    interest_saved res = Py.round (total_interest (base res) - T) 2 /\
    ((req_annual_rate_pct req / 100 =? 0) = true ->
     total_interest (base res) = 0 /\
     (T =? 0) = true /\
     interest_saved res = 0).
Proof.
  intros (Hp0 & Hrate & _ & _ & Hppy & _) Hprin H.
  destruct (prepay_vs_invest_ok _ _ H)
    as (ppy & rp & st & (Hb & Hf & Hrp) & Hl & _ & Hwe & Hsaved).
  assert (Hstart : SFnot_inf
                     (Prim2SF (sim_balance (sim_start req (base res) ppy)))).
  { unfold sim_start, sim_init. simpl.
    pose proof (finite_nonneg_bounds _ (pos_nonneg _ Hp0) Hprin) as Hfn.
    unfold finite_nonneg in Hfn.
    destruct (Prim2SF (req_principal req)); try discriminate; exact I. }
  assert (HT : (0 <=? sim_total_interest st) = true).
  { apply (sim_loop_interest_nonneg rp (sim_cap req) _
             (per_period_rate_nonneg _ _ _ _ Hrate Hppy Hf Hrp) _ _ Hl);
      [exact Hstart | reflexivity]. }
  exists (sim_total_interest st).
  split; [exact HT |]. split; [exact Hwe |].
  split; [rewrite Hwe; apply round_nonneg, HT |].
  split; [exact Hsaved |].
  intros Hr.
  assert (Hz : SFis_zero (Prim2SF (sim_total_interest st)) = true).
  { apply (sim_loop_zero_rate rp (sim_cap req) _
             (zero_rate_per_period _ _ _ _ Hr Hppy Hf Hrp) _ _ Hl);
      [exact Hstart | reflexivity]. }
  pose proof (zero_rate_total_interest _ _ _ _ _ Hr Hb) as Hbase.
  split; [exact Hbase |]. split; [apply is_zero_eqb, Hz |].
  rewrite Hsaved, Hbase. apply round_zero_minus_zero, Hz.
Qed.

(** A zero-rate loan of 100 over 12 months with 0.001 extra a month. *)
Lemma interest_saved_sign_witness :
  exists res,
    prepay_vs_invest
      {| req_principal := 100; req_annual_rate_pct := 0; req_years := 1;
         req_extra_monthly := 0.001; req_payments_per_year := 12;
         req_invest_rate_pct := 5; req_inflation_pct := 0 |} = Ok res /\
    exists T : float,
      (0 <=? T) = true /\
      we_total_interest (with_extra res) = Py.round T 2 /\
      (0 <=? we_total_interest (with_extra res)) = true /\
      interest_saved res = Py.round (total_interest (base res) - T) 2 /\
      ((0 / 100 =? 0) = true ->
       total_interest (base res) = 0 /\
       (T =? 0) = true /\
       interest_saved res = 0).
Proof.
  eexists. split; [vm_compute; reflexivity |].
  apply (interest_saved_sign
           {| req_principal := 100; req_annual_rate_pct := 0;
              req_years := 1; req_extra_monthly := 0.001;
              req_payments_per_year := 12; req_invest_rate_pct := 5;
              req_inflation_pct := 0 |}).
  - unfold valid_scenario. simpl. repeat split; lia.
  - reflexivity.
  - vm_compute. reflexivity.
Defined.

(** C7 as stated fails: at 100 percent a year over 2 yearly periods the
    baseline payment 133.33... is returned as 133.33; with an extra 0.001 a
    month the loan takes a third period and accrues 166.68 of interest
    against the baseline's 166.67, so [interest_saved] is -0.01. *)
Lemma interest_saved_negative :
  exists res,
    prepay_vs_invest
      {| req_principal := 100; req_annual_rate_pct := 100; req_years := 2;
         req_extra_monthly := 0.001; req_payments_per_year := 1;
         req_invest_rate_pct := 5; req_inflation_pct := 0 |} = Ok res /\
    (0 <? 0.001) = true /\
    interest_saved res = -0.01 /\
    (0 <=? interest_saved res) = false.
Proof. eexists. split; [vm_compute; reflexivity |]. repeat split. Qed.

End InterestSaved.

(** ** Tax engine: the breakdown, failures, and the handler *)

Section TaxBreakdown.

Local Open Scope float_scope.

(** Once the loop has stopped on used-up income, slabs further down the
    table change nothing. *)
Lemma tax_loop_app (slabs more : list slab) :
  slabs <> [] ->
  forall st st',
    tax_loop slabs st = Ok st' -> (remaining st' <=? 0) = true ->
    tax_loop (slabs ++ more) st = Ok st'.
Proof.
  induction slabs as [| s rest IH]; [congruence |]. intros _ st st' H Hrem.
  simpl in *.
  destruct (tax_body s st) as [a | e]; simpl in *; [| discriminate].
  destruct (remaining a <=? 0) eqn:Ha; [exact H |].
  destruct rest as [| s' rest'].
  - simpl in H. injection H as <-. congruence.
  - apply IH; [discriminate | exact H | exact Hrem].
Qed.

(** X1.  Slabs listed after the one that uses up the income are never
    read: appending any slabs, malformed ones included, to a non-empty
    table that uses up the income leaves the result unchanged. *)
Theorem slabs_after_exhaustion_unread (income : float)
    (slabs more : list slab) :
  slabs <> [] ->
  income_used_up income slabs ->
  compute_progressive_tax income (slabs ++ more) =
  compute_progressive_tax income slabs.
Proof.
  intros Hne (st & Hst & Hrem). unfold compute_progressive_tax.
  rewrite (tax_loop_app slabs more Hne _ _ Hst Hrem), Hst. reflexivity.
Qed.

Lemma slabs_after_exhaustion_unread_witness :
  compute_progressive_tax 600000
    (firstn 3 default_slabs ++ [[("rate"%string, None)]]) =
  compute_progressive_tax 600000 (firstn 3 default_slabs).
Proof.
  apply (slabs_after_exhaustion_unread 600000 (firstn 3 default_slabs)).
  - discriminate.
  - eexists. split; vm_compute; reflexivity.
Defined.

(** The entries the loop adds belong to the slabs it read, one each and in
    order. *)
Lemma tax_loop_breakdown (slabs : list slab) :
  forall st st',
    tax_loop slabs st = Ok st' ->
    exists added,
      tax_breakdown st' = tax_breakdown st ++ added /\
      (List.length added <= List.length slabs)%nat /\
      (slabs <> [] -> (1 <= List.length added)%nat) /\
      map (fun e => Ok (rate e)) added =
        map slab_rate (firstn (List.length added) slabs) /\
      map band_from added =
        firstn (List.length added) (prev_cap st :: map slab_cap slabs) /\
      map band_to added =
        map (fun s => shown_cap (slab_cap s))
          (firstn (List.length added) slabs).
Proof.
  induction slabs as [| s rest IH]; simpl; intros st st' H.
  - injection H as <-. exists []. rewrite app_nil_r. simpl.
    repeat split; auto. congruence.
  - destruct (tax_body s st) as [a | e] eqn:B; simpl in H; [| discriminate].
    destruct (tax_body_ok _ _ _ B) as (r & Hr & _ & Hc & _ & Hb).
    destruct (remaining a <=? 0).
    + injection H as <-. eexists [_]. split; [exact Hb |]. simpl.
      rewrite Hr. unfold shown_cap. repeat split; auto; lia.
    + destruct (IH _ _ H) as (added & Ha & Hlen & _ & Hrate & Hfrom & Hto).
      eexists (_ :: added). split.
      { rewrite Ha, Hb, <- app_assoc. reflexivity. }
      simpl. rewrite Hr, Hrate, Hfrom, Hto, Hc. unfold shown_cap.
      repeat split; auto; lia.
Qed.

(** X2.  The breakdown follows the slab table: it has one entry for each
    slab of a leading part of the table (at least one when the table is
    not empty), in table order; an entry carries its slab's rate, starts
    where the slab before it was capped (the first at 0) and ends at its
    slab's cap, shown as [None] when the cap is infinite. *)
Theorem breakdown_follows_slabs (income : float) (slabs : list slab)
    (res : tax_result) :
  compute_progressive_tax income slabs = Ok res ->
  let k := List.length (breakdown res) in
  (k <= List.length slabs)%nat /\
  (slabs <> [] -> (1 <= k)%nat) /\
  map (fun e => Ok (rate e)) (breakdown res) = map slab_rate (firstn k slabs) /\
  map band_from (breakdown res) = firstn k (0 :: map slab_cap slabs) /\
  map band_to (breakdown res) =
    map (fun s => shown_cap (slab_cap s)) (firstn k slabs).
Proof.
  unfold compute_progressive_tax.
  destruct (tax_loop slabs (tax_init income)) as [st | e] eqn:Hl; simpl;
    [| discriminate].
  intros H. injection H as <-. simpl.
  destruct (tax_loop_breakdown _ _ _ Hl) as (added & Ha & H1 & H2 & H3 & H4 & H5).
  simpl in Ha. subst added. auto.
Qed.

Lemma breakdown_follows_slabs_witness :
  exists res,
    compute_progressive_tax 600000 default_slabs = Ok res /\
    let k := List.length (breakdown res) in
    (k <= List.length default_slabs)%nat /\
    (default_slabs <> [] -> (1 <= k)%nat) /\
    map (fun e => Ok (rate e)) (breakdown res) =
      map slab_rate (firstn k default_slabs) /\
    map band_from (breakdown res) =
      firstn k (0 :: map slab_cap default_slabs) /\
    map band_to (breakdown res) =
      map (fun s => shown_cap (slab_cap s)) (firstn k default_slabs).
Proof.
  eexists. split; [vm_compute; reflexivity |].
  apply (breakdown_follows_slabs 600000 default_slabs).
  vm_compute. reflexivity.
Defined.

(** The amount taken in a band is never negative. *)
Lemma tax_loop_taxable_nonneg (slabs : list slab) :
  forall st st',
    tax_loop slabs st = Ok st' ->
    Forall (fun e => (0 <=? taxable e) = true) (tax_breakdown st) ->
    Forall (fun e => (0 <=? taxable e) = true) (tax_breakdown st').
Proof.
  induction slabs as [| s rest IH]; simpl; intros st st' H Hall.
  - injection H as <-. exact Hall.
  - destruct (tax_body s st) as [a | e] eqn:B; simpl in H; [| discriminate].
    destruct (tax_body_ok _ _ _ B) as (r & _ & _ & _ & _ & Hb).
    assert (Ha : Forall (fun e => (0 <=? taxable e) = true) (tax_breakdown a)).
    { rewrite Hb. apply Forall_app. split; [exact Hall |].
      constructor; [| constructor]. simpl.
      apply round_nonneg, max_zero_nonneg. }
    destruct (remaining a <=? 0); [injection H as <-; exact Ha |].
    apply (IH _ _ H Ha).
Qed.

(** With rates between 0 and 1 and a finite income, neither is the tax of
    a band. *)
Lemma tax_loop_tax_nonneg (slabs : list slab) :
  Forall rate_in_unit slabs ->
  forall st st',
    tax_loop slabs st = Ok st' ->
    finite_nonneg (remaining st) = true ->
    Forall (fun e => (0 <=? tax e) = true) (tax_breakdown st) ->
    Forall (fun e => (0 <=? tax e) = true) (tax_breakdown st').
Proof.
  induction 1 as [| s rest (r & Hr & Hr0 & Hr1) _ IH]; simpl;
    intros st st' H Hrem Hall.
  - injection H as <-. exact Hall.
  - destruct (tax_body s st) as [a | e] eqn:B; simpl in H; [| discriminate].
    destruct (tax_body_ok _ _ _ B) as (r' & Hr' & Hrem1 & _ & _ & Hb).
    assert (r' = r) as -> by congruence.
    assert (Hband : finite_nonneg (band_of s st) = true)
      by (apply band_finite_nonneg, Hrem).
    assert (Ha : Forall (fun e => (0 <=? tax e) = true) (tax_breakdown a)).
    { rewrite Hb. apply Forall_app. split; [exact Hall |].
      constructor; [| constructor]. simpl. apply round_nonneg.
      apply mul_nonneg; [exact Hband | apply rate_finite_nonneg; assumption]. }
    destruct (remaining a <=? 0) eqn:Hstop; [injection H as <-; exact Ha |].
    apply (IH _ _ H); [| exact Ha].
    rewrite Hrem1 in *. apply sub_finite_nonneg; assumption.
Qed.

(** X3.  No breakdown entry shows a negative amount of income, whatever
    the income and the table (caps out of order, a negative income, NaN):
    the band is clamped at 0.  With a finite income that is not negative
    and rates between 0 and 1, no entry shows a negative tax either. *)
Theorem breakdown_amounts_not_negative (income : float) (slabs : list slab)
    (res : tax_result) :
  compute_progressive_tax income slabs = Ok res ->
  Forall (fun e => (0 <=? taxable e) = true) (breakdown res) /\
  ((0 <=? income) = true -> (income <? infinity) = true ->
   Forall rate_in_unit slabs ->
   Forall (fun e => (0 <=? tax e) = true) (breakdown res)).
Proof.
  unfold compute_progressive_tax.
  destruct (tax_loop slabs (tax_init income)) as [st | e] eqn:Hl; simpl;
    [| discriminate].
  intros H. injection H as <-. simpl. split.
  - apply (tax_loop_taxable_nonneg _ _ _ Hl). constructor.
  - intros H0 Hfin Hrates.
    apply (tax_loop_tax_nonneg _ Hrates _ _ Hl); [| constructor].
    apply finite_nonneg_bounds; assumption.
Qed.

Lemma breakdown_amounts_not_negative_witness :
  exists res,
    compute_progressive_tax (-5) [mk_slab (Some (-3)) 0.5; mk_slab None 2]
      = Ok res /\
    Forall (fun e => (0 <=? taxable e) = true) (breakdown res) /\
    ((0 <=? -5) = true -> (-5 <? infinity) = true ->
     Forall rate_in_unit [mk_slab (Some (-3)) 0.5; mk_slab None 2] ->
     Forall (fun e => (0 <=? tax e) = true) (breakdown res)).
Proof.
  eexists. split; [vm_compute; reflexivity |].
  apply (breakdown_amounts_not_negative (-5)
           [mk_slab (Some (-3)) 0.5; mk_slab None 2]).
  vm_compute. reflexivity.
Defined.

(** The loop fails on the first slab it reaches whose rate is [None]. *)
Lemma tax_loop_raise (slabs : list slab) :
  forall st e,
    tax_loop slabs st = Raise e ->
    e = TypeError /\
    exists before s after st1,
      slabs = before ++ s :: after /\
      slab_rate s = Raise TypeError /\
      tax_loop before st = Ok st1 /\
      (before = [] \/ (remaining st1 <=? 0) = false).
Proof.
  induction slabs as [| s rest IH]; simpl; intros st e H; [discriminate |].
  destruct (tax_body s st) as [a | e'] eqn:B; simpl in H.
  - destruct (remaining a <=? 0) eqn:Ha; [discriminate |].
    destruct (IH _ _ H) as (-> & before & s' & after & st1 & -> & Hs & Hl & Hc).
    split; [reflexivity |].
    exists (s :: before), s', after, st1. simpl. rewrite B. simpl. rewrite Ha.
    repeat split; auto. right. destruct Hc as [-> | Hc]; [| exact Hc].
    simpl in Hl. injection Hl as <-. exact Ha.
  - injection H as <-. unfold tax_body in B.
    destruct (slab_rate s) as [r | e''] eqn:Hr; simpl in B; [discriminate |].
    injection B as <-.
    assert (e'' = TypeError) as ->.
    { unfold slab_rate in Hr.
      destruct (dict_get s "rate") as [[x |] |]; congruence. }
    split; [reflexivity |]. exists [], s, rest, st. auto.
Qed.

Lemma tax_loop_reaches_none (before : list slab) (s : slab)
    (after : list slab) :
  slab_rate s = Raise TypeError ->
  forall st st1,
    tax_loop before st = Ok st1 ->
    before = [] \/ (remaining st1 <=? 0) = false ->
    tax_loop (before ++ s :: after) st = Raise TypeError.
Proof.
  intros Hs. induction before as [| b rest IH]; simpl; intros st st1 Hl Hc.
  - unfold tax_body. rewrite Hs. reflexivity.
  - destruct Hc as [Hc | Hc]; [discriminate |].
    destruct (tax_body b st) as [a | e]; simpl in *; [| discriminate].
    destruct (remaining a <=? 0) eqn:Ha.
    + injection Hl as <-. congruence.
    + apply (IH _ _ Hl). destruct rest as [| b' rest']; [left; reflexivity |].
      right. exact Hc.
Qed.

(** X4.  The engine fails exactly when the loop reaches a slab whose rate
    is [None] (every slab before it was read and left income over), and
    then with a [TypeError], which the handler does not catch; a [None]
    rate further down than the income reaches is harmless. *)
Theorem tax_fails_on_reached_none_rate (income : float) (slabs : list slab)
    (e : exn) :
  compute_progressive_tax income slabs = Raise e <->
  e = TypeError /\
  exists before s after st,
    slabs = before ++ s :: after /\
    slab_rate s = Raise TypeError /\
    tax_loop before (tax_init income) = Ok st /\
    (before = [] \/ (remaining st <=? 0) = false).
Proof.
  unfold compute_progressive_tax. split.
  - destruct (tax_loop slabs (tax_init income)) as [st | e'] eqn:Hl; simpl;
      [discriminate |].
    intros H. injection H as <-. apply (tax_loop_raise _ _ _ Hl).
  - intros (-> & before & s & after & st & -> & Hs & Hl & Hc).
    rewrite (tax_loop_reaches_none before s after Hs _ _ Hl Hc). reflexivity.
Qed.

End TaxBreakdown.

(** ** The tax handler *)

Section TaxHandler.

Local Open Scope float_scope.

Lemma finite_nonneg_max_zero_leb (a b : float) :
  (0 <=? a) = true -> (a <? infinity) = true ->
  (0 <=? b) = true -> (b <? infinity) = true ->
  finite_nonneg (Py.max 0 (a - b)) = true.
Proof.
  intros. apply max_zero_sub_finite; apply finite_nonneg_bounds; assumption.
Qed.

(** X5.  A request the model admits, with finite amounts and rates
    between 0 and 1, is always answered: the answer echoes the income and
    the deductions, carries the engine's result for the income less the
    deductions (0 when the deductions exceed it), and its taxable income,
    its tax due and its effective rate are not negative; the division by
    the income is never by zero. *)
Theorem tax_calc_validated (req : TaxRequest) :
  valid_tax_request req ->
  (treq_annual_income req <? infinity) = true ->
  (treq_deductions req <? infinity) = true ->
  Forall rate_in_unit (treq_slabs req) ->
  exists resp,
    tax_calc req = Ok resp /\
    compute_progressive_tax
      (Py.max 0 (treq_annual_income req - treq_deductions req))
      (treq_slabs req) =
      Ok {| tax_due := resp_tax_due resp;
            breakdown := resp_breakdown resp |} /\
    resp_annual_income resp = treq_annual_income req /\
    resp_deductions resp = treq_deductions req /\
    (0 <=? taxable_income resp) = true /\
    (0 <=? resp_tax_due resp) = true /\
    (0 <=? effective_rate_pct resp) = true.
Proof.
  intros [Hi Hd] Hif Hdf Hrates.
  set (taxable := Py.max 0 (treq_annual_income req - treq_deductions req)).
  assert (Htax : finite_nonneg taxable = true)
    by (apply finite_nonneg_max_zero_leb; assumption).
  assert (Htotal : Forall (fun s => exists r, slab_rate s = Ok r)
                     (treq_slabs req)).
  { apply (Forall_impl _ (P := rate_in_unit)); [| exact Hrates].
    intros s (r & Hr & _). eauto. }
  destruct (tax_loop_total _ Htotal (tax_init taxable)) as [st Hst].
  assert (Hdue : (0 <=? Py.round (tax_acc st) 2) = true).
  { apply round_nonneg.
    apply (tax_loop_nonneg _ Hrates _ _ Hst); [exact Htax | reflexivity]. }
  unfold tax_calc. fold taxable. unfold compute_progressive_tax.
  rewrite Hst. simpl.
  destruct (0 <? treq_annual_income req) eqn:Hpos.
  - unfold truediv. rewrite (pos_not_zero _ Hpos). simpl.
    eexists. split; [reflexivity |]. simpl.
    repeat split; auto.
    + apply round_nonneg, max_zero_nonneg.
    + apply round_nonneg. apply mul_nonneg_pos; try reflexivity.
      apply div_nonneg; assumption.
  - simpl. eexists. split; [reflexivity |]. simpl.
    repeat split; auto. apply round_nonneg, max_zero_nonneg.
Qed.

Lemma tax_calc_validated_witness :
  let req := {| treq_annual_income := 700000; treq_deductions := 100000;
                treq_slabs := default_slabs |} in
  exists resp,
    tax_calc req = Ok resp /\
    compute_progressive_tax
      (Py.max 0 (treq_annual_income req - treq_deductions req))
      (treq_slabs req) =
      Ok {| tax_due := resp_tax_due resp;
            breakdown := resp_breakdown resp |} /\
    resp_annual_income resp = treq_annual_income req /\
    resp_deductions resp = treq_deductions req /\
    (0 <=? taxable_income resp) = true /\
    (0 <=? resp_tax_due resp) = true /\
    (0 <=? effective_rate_pct resp) = true.
Proof.
  apply (tax_calc_validated
           {| treq_annual_income := 700000; treq_deductions := 100000;
              treq_slabs := default_slabs |}).
  - split; reflexivity.
  - reflexivity.
  - reflexivity.
  - repeat constructor; eexists; (split; [reflexivity |]); split; reflexivity.
Defined.

(** The engine on no income at all. *)
Lemma compute_progressive_tax_nothing (slabs : list slab) :
  Forall rate_in_unit slabs ->
  exists res,
    compute_progressive_tax 0 slabs = Ok res /\
    tax_due res = 0 /\
    (List.length (breakdown res) <= 1)%nat /\
    Forall (fun e => taxable e = 0 /\ (tax e =? 0) = true) (breakdown res).
Proof.
  intros Hrates. unfold compute_progressive_tax.
  destruct Hrates as [| s rest (r & Hr & Hr0 & Hr1) _]; simpl.
  - eexists. split; [reflexivity |]. simpl. repeat split; auto.
  - unfold tax_body. rewrite Hr. simpl.
    rewrite band_of_nothing.
    change (0 - 0 <=? 0) with true. cbv iota. simpl.
    pose proof (zero_mul_finite r (rate_finite_nonneg r Hr0 Hr1)) as Hz.
    eexists. split; [reflexivity |]. simpl.
    rewrite (zero_add_zero _ Hz). repeat split; auto.
    constructor; [| constructor]. simpl. split; [reflexivity |].
    apply round_is_zero, Hz.
Qed.

(** X6.  For a slab table whose rates are numbers between 0 and 1, when
    the deductions reach the income nothing is taxed: the handler answers,
    the taxable income, the tax due and the effective rate of the answer
    are [0.0], and the breakdown has at most one entry (for the first
    slab), with no income and no tax in it.  (A rate of [None] would raise
    [TypeError], an infinite one would give NaN.) *)
Theorem tax_calc_deductions_cover_income (req : TaxRequest) :
  (treq_annual_income req <=? treq_deductions req) = true ->
  Forall rate_in_unit (treq_slabs req) ->
  exists resp,
    tax_calc req = Ok resp /\
    taxable_income resp = 0 /\
    resp_tax_due resp = 0 /\
    effective_rate_pct resp = 0 /\
    (List.length (resp_breakdown resp) <= 1)%nat /\
    Forall (fun e => taxable e = 0 /\ (tax e =? 0) = true)
      (resp_breakdown resp).
Proof.
  intros Hle Hrates.
  destruct (compute_progressive_tax_nothing _ Hrates)
    as (res & Hres & Hdue & Hlen & Hall).
  unfold tax_calc. cbv zeta. unfold Py.max.
  rewrite (sub_not_pos_of_le _ _ Hle).
  rewrite Hres. simpl.
  destruct (0 <? treq_annual_income req) eqn:Hpos.
  - unfold truediv. rewrite (pos_not_zero _ Hpos). simpl.
    eexists. split; [reflexivity |]. simpl. rewrite Hdue.
    rewrite (zero_share _ Hpos). repeat split; auto.
  - simpl. eexists. split; [reflexivity |]. simpl. repeat split; auto.
Qed.

Lemma tax_calc_deductions_cover_income_witness :
  exists resp,
    tax_calc {| treq_annual_income := 100000; treq_deductions := 250000;
                treq_slabs := default_slabs |} = Ok resp /\
    taxable_income resp = 0 /\
    resp_tax_due resp = 0 /\
    effective_rate_pct resp = 0 /\
    (List.length (resp_breakdown resp) <= 1)%nat /\
    Forall (fun e => taxable e = 0 /\ (tax e =? 0) = true)
      (resp_breakdown resp).
Proof.
  apply (tax_calc_deductions_cover_income
           {| treq_annual_income := 100000; treq_deductions := 250000;
              treq_slabs := default_slabs |}).
  - reflexivity.
  - repeat constructor; eexists; (split; [reflexivity |]); split; reflexivity.
Defined.

End TaxHandler.

(** ** Amortization: period numbers and the handler *)

Section AmortizationHandler.

Local Open Scope float_scope.

Lemma periods_upto_shift (i : Z) (k : nat) :
  map (fun j => (i + 1 + Z.of_nat j)%Z) (seq 0 k) =
  map (fun j => (i + Z.of_nat j)%Z) (seq 1 k).
Proof.
  rewrite <- seq_shift, map_map. apply map_ext. intros j. cbv beta. lia.
Qed.

(** The loop numbers the entries it adds from [i] on, and adds one at
    least when it has a period to go through. *)
Lemma amort_loop_periods (r : float) (ppy : Z) (todo : nat) :
  forall i st st',
    amort_loop r ppy todo i st = Ok st' ->
    exists added,
      am_schedule st' = am_schedule st ++ added /\
      map period added =
        map (fun j => (i + Z.of_nat j)%Z) (seq 0 (List.length added)) /\
      (added = [] <-> todo = O).
Proof.
  induction todo as [| todo IH]; simpl; intros i st st' H.
  - injection H as <-. exists []. rewrite app_nil_r. simpl. tauto.
  - destruct (amort_body r ppy i st) as [a | e] eqn:B; simpl in H;
      [| discriminate].
    destruct (amort_body_ok _ _ _ _ _ B) as (int & pay & -> & _).
    destruct (am_balance (amort_update i st int pay) <=? 0).
    + injection H as <-. eexists [_]. split; [reflexivity |]. simpl.
      rewrite Z.add_0_r. split; [reflexivity |]. split; discriminate.
    + destruct (IH _ _ _ H) as (added & Hs & Hp & _).
      simpl in Hs. rewrite <- app_assoc in Hs. simpl in Hs.
      eexists (_ :: added). split; [exact Hs |]. simpl.
      rewrite Hp, Z.add_0_r, periods_upto_shift.
      split; [reflexivity |]. split; discriminate.
Qed.

(** X7.  The schedule's entries are numbered 1, 2, 3, ... without a gap,
    and the schedule is empty exactly when the number of periods is not
    positive. *)
Theorem schedule_periods_numbered (principal rate : float) (years : num)
    (ppy : Z) (res : amort_result) :
  amortization_schedule principal rate years ppy = Ok res ->
  map period (schedule res) = periods_upto (List.length (schedule res)) /\
  (schedule res = [] <-> (periods res <= 0)%Z).
Proof.
  intros H.
  destruct (amortization_schedule_ok _ _ _ _ _ H)
    as (n & pay & st & _ & _ & Hl & ->).
  destruct (amort_loop_periods _ _ _ _ _ _ Hl) as (added & Hs & Hp & Hz).
  simpl in Hs. subst added. cbn [schedule periods]. split.
  - rewrite Hp. unfold periods_upto. rewrite <- seq_shift, map_map.
    apply map_ext. intros j. lia.
  - rewrite Hz. lia.
Qed.

Lemma schedule_periods_numbered_witness :
  exists res,
    amortization_schedule 1200 12 (Int 1) 4 = Ok res /\
    map period (schedule res) = periods_upto (List.length (schedule res)) /\
    (schedule res = [] <-> (periods res <= 0)%Z).
Proof.
  eexists. split; [vm_compute; reflexivity |].
  apply (schedule_periods_numbered 1200 12 (Int 1) 4).
  vm_compute. reflexivity.
Defined.

(** Once a pass is made, the last entry shows the payment the loop is
    at. *)
Lemma amort_loop_last (r : float) (ppy : Z) (todo : nat) :
  forall i st st',
    amort_loop r ppy todo i st = Ok st' ->
    (todo = O /\ st' = st) \/
    exists l e,
      am_schedule st' = l ++ [e] /\
      entry_payment e = Py.round (am_payment st') 2.
Proof.
  induction todo as [| todo IH]; simpl; intros i st st' H.
  - injection H as <-. left. auto.
  - right.
    destruct (amort_body r ppy i st) as [a | e] eqn:B; simpl in H;
      [| discriminate].
    destruct (amort_body_ok _ _ _ _ _ B) as (int & pay & -> & _).
    destruct (am_balance (amort_update i st int pay) <=? 0).
    + injection H as <-. eexists _, _. split; reflexivity.
    + destruct (IH _ _ _ H) as [[_ ->] | Hlast]; [| exact Hlast].
      eexists _, _. split; reflexivity.
Qed.

(** X8.  The payment the engine reports is the one its last schedule
    entry shows: when the final period pays less than the regular
    installment, the reported payment is that smaller amount. *)
Theorem reported_payment_is_last_entry (principal rate : float) (years : num)
    (ppy : Z) (res : amort_result) :
  amortization_schedule principal rate years ppy = Ok res ->
  (1 <= periods res)%Z ->
  exists l e, schedule res = l ++ [e] /\ payment res = entry_payment e.
Proof.
  intros H Hn.
  destruct (amortization_schedule_ok _ _ _ _ _ H)
    as (n & pay & st & _ & _ & Hl & ->).
  cbn [periods schedule payment] in *.
  destruct (amort_loop_last _ _ _ _ _ _ Hl) as [[Hz _] | (l & e & Hs & He)];
    [lia |].
  exists l, e. auto.
Qed.

Lemma reported_payment_is_last_entry_witness :
  exists res,
    amortization_schedule 100 0 (Int 1) 3 = Ok res /\
    exists l e, schedule res = l ++ [e] /\ payment res = entry_payment e.
Proof.
  eexists. split; [vm_compute; reflexivity |].
  apply (reported_payment_is_last_entry 100 0 (Int 1) 3).
  - vm_compute. reflexivity.
  - vm_compute. discriminate.
Defined.

(** The loop keeps the unrounded interest of each period in the total and
    the rounded one in the schedule. *)
Lemma amort_loop_interest (r : float) (ppy : Z) (todo : nat) :
  forall i st st',
    amort_loop r ppy todo i st = Ok st' ->
    exists interests : list float,
      map interest_paid (am_schedule st') =
        map interest_paid (am_schedule st) ++
          map (fun t => Py.round t 2) interests /\
      am_total_interest st' =
        fold_left PrimFloat.add interests (am_total_interest st).
Proof.
  induction todo as [| todo IH]; simpl; intros i st st' H.
  - injection H as <-. exists []. simpl. rewrite app_nil_r. auto.
  - destruct (amort_body r ppy i st) as [a | e] eqn:B; simpl in H;
      [| discriminate].
    destruct (amort_body_ok _ _ _ _ _ B) as (int & pay & -> & _).
    destruct (am_balance (amort_update i st int pay) <=? 0).
    + injection H as <-. exists [int]. simpl. rewrite map_app. auto.
    + destruct (IH _ _ _ H) as (ints & Hs & Ht).
      exists (int :: ints). simpl in *. rewrite Hs, Ht, map_app.
      rewrite <- app_assoc. auto.
Qed.

(** X9.  The total interest reported is the 2-decimal rounding of the
    sum of the periods' unrounded interest, while each schedule entry
    shows its own interest rounded: the total need not be the sum of the
    interest column. *)
Theorem total_interest_rounds_the_sum (principal rate : float) (years : num)
    (ppy : Z) (res : amort_result) :
  amortization_schedule principal rate years ppy = Ok res ->
  exists interests : list float,
    map interest_paid (schedule res) =
      map (fun t => Py.round t 2) interests /\
    total_interest res = Py.round (sum_floats interests) 2.
Proof.
  intros H.
  destruct (amortization_schedule_ok _ _ _ _ _ H)
    as (n & pay & st & _ & _ & Hl & ->).
  destruct (amort_loop_interest _ _ _ _ _ _ Hl) as (ints & Hs & Ht).
  exists ints. cbn [schedule total_interest]. simpl in Hs, Ht.
  rewrite Ht. auto.
Qed.

Lemma total_interest_rounds_the_sum_witness :
  exists res,
    amortization_schedule 1200 12 (Int 1) 4 = Ok res /\
    exists interests : list float,
      map interest_paid (schedule res) =
        map (fun t => Py.round t 2) interests /\
      total_interest res = Py.round (sum_floats interests) 2.
Proof.
  eexists. split; [vm_compute; reflexivity |].
  apply (total_interest_rounds_the_sum 1200 12 (Int 1) 4).
  vm_compute. reflexivity.
Defined.

(** X10.  The handler answers with an [HTTPException] exactly when the
    principal or the years are [<= 0], and then with status 400 and the
    detail "Principal and years must be > 0", before anything is computed;
    whatever the engine raises is no [HTTPException]. *)
Theorem loan_amortize_refuses (req : LoanRequest) (e : exn) :
  loan_amortize req = Raise e /\ is_http e = true <->
  ((loan_principal req <=? 0) || (loan_years req <=? 0)) = true /\
  e = loan_refusal.
Proof.
  unfold loan_amortize.
  destruct ((loan_principal req <=? 0) || (loan_years req <=? 0)); split.
  - intros [H _]. injection H as <-. auto.
  - intros [_ ->]. auto.
  - intros [H Hh].
    destruct (amortization_schedule _ _ _ _) as [res | e'] eqn:Ha; simpl in H;
      [discriminate |].
    injection H as <-.
    rewrite (builtin_only_amortization_schedule _ _ _ _ _ Ha) in Hh.
    discriminate.
  - intros [H _]. discriminate.
Qed.

(** X11.  A request the model admits is never refused by the handler's own
    check: the handler raises no [HTTPException], and it answers exactly
    when the engine returns, with the request's four fields followed by
    the engine's result. *)
Theorem loan_amortize_validated (req : LoanRequest) :
  valid_loan_request req ->
  builtin_only (loan_amortize req) /\
  forall resp,
    loan_amortize req = Ok resp <->
    exists res,
      amortization_schedule (loan_principal req) (loan_annual_rate_pct req)
        (Float (loan_years req)) (loan_payments_per_year req) = Ok res /\
      resp = {| lresp_principal := loan_principal req;
                lresp_annual_rate_pct := loan_annual_rate_pct req;
                lresp_years := loan_years req;
                lresp_payments_per_year := loan_payments_per_year req;
                lresp_periods := periods res;
                lresp_payment := payment res;
                lresp_total_interest := total_interest res;
                lresp_schedule := schedule res |}.
Proof.
  intros (Hp & _ & Hy & _). unfold loan_amortize.
  rewrite (pos_not_le_zero _ Hp), (pos_not_le_zero _ Hy). simpl. split.
  - apply builtin_only_bind;
      [apply builtin_only_amortization_schedule | intros; apply builtin_only_ok].
  - intros resp.
    destruct (amortization_schedule _ _ _ _) as [res | e]; simpl; split.
    + intros H. injection H as <-. exists res. auto.
    + intros (res' & H & ->). injection H as <-. reflexivity.
    + discriminate.
    + intros (res' & H & _). discriminate.
Qed.

Lemma loan_amortize_validated_witness :
  let req := {| loan_principal := 1200; loan_annual_rate_pct := 0;
                loan_years := 0.5; loan_payments_per_year := 4 |} in
  builtin_only (loan_amortize req) /\
  forall resp,
    loan_amortize req = Ok resp <->
    exists res,
      amortization_schedule (loan_principal req) (loan_annual_rate_pct req)
        (Float (loan_years req)) (loan_payments_per_year req) = Ok res /\
      resp = {| lresp_principal := loan_principal req;
                lresp_annual_rate_pct := loan_annual_rate_pct req;
                lresp_years := loan_years req;
                lresp_payments_per_year := loan_payments_per_year req;
                lresp_periods := periods res;
                lresp_payment := payment res;
                lresp_total_interest := total_interest res;
                lresp_schedule := schedule res |}.
Proof.
  apply (loan_amortize_validated
           {| loan_principal := 1200; loan_annual_rate_pct := 0;
              loan_years := 0.5; loan_payments_per_year := 4 |}).
  repeat split; simpl; lia.
Defined.

End AmortizationHandler.

(** ** Prepay-versus-invest comparison: the sample and the inputs *)

Section ComparatorSample.

Local Open Scope float_scope.

Lemma firstn_seq (k : nat) :
  forall a n, firstn k (seq a n) = seq a (Nat.min k n).
Proof.
  induction k as [| k IH]; intros a [| n]; simpl; auto. f_equal. apply IH.
Qed.

Lemma periods_upto_S (k : nat) :
  periods_upto (S k) = periods_upto k ++ [Z.of_nat (S k)].
Proof. unfold periods_upto. rewrite seq_S, map_app. reflexivity. Qed.

Lemma above_nonneg (c x : float) :
  (0 <=? c) = true -> (c <? x) = true -> (0 <=? x) = true.
Proof.
  rewrite !leb_spec, ltb_spec, Prim2SF_zero.
  sf_cases c; sf_cases x; sf_compare; simpl; congruence.
Qed.

(** A number that is not below zero does not round below zero, NaN
    included. *)
Lemma round_not_below_zero (x : float) (nd : positive) :
  (x <? 0) = false -> (Py.round x nd <? 0) = false.
Proof.
  intros H. destruct (0 <=? x) eqn:Hp.
  - apply nonneg_not_neg, round_nonneg, Hp.
  - assert (Hn : Prim2SF x = S754_nan).
    { revert H Hp. rewrite leb_spec, ltb_spec, Prim2SF_zero.
      sf_cases x; sf_compare; congruence. }
    rewrite ltb_spec, Prim2SF_nan_round by exact Hn. reflexivity.
Qed.

(** What a pass adds to the schedule. *)
Lemma sim_body_entry (rp : float) (st st' : sim_state) :
  sim_body rp st = Ok st' ->
  (0 <=? sim_balance st) = true ->
  exists e,
    sim_schedule st' = sim_schedule st ++ [e] /\
    sim_period st' = (sim_period st + 1)%Z /\
    period e = (sim_period st + 1)%Z /\
    (principal_paid e <? 0) = false /\
    (remaining_balance e <? 0) = false.
Proof.
  unfold sim_body. intros H Hbal.
  destruct (sim_payment st - sim_balance st * rp <=? 0) eqn:Hpp;
    [discriminate |].
  injection H as <-. eexists. split; [reflexivity |]. simpl.
  repeat split.
  - destruct (sim_balance st <? _).
    + apply nonneg_not_neg, round_nonneg, Hbal.
    + apply round_not_neg, Hpp.
  - unfold Py.max.
    match goal with |- context [if ?b then _ else _] => destruct b eqn:Hb end.
    + reflexivity.
    + apply round_not_below_zero, Hb.
Qed.

Lemma sim_reach_schedule (rp : float) (n_max : Z) (st st' : sim_state) :
  sim_reach rp n_max st st' ->
  (0 <= sim_period st)%Z ->
  map period (sim_schedule st) = periods_upto (Z.to_nat (sim_period st)) ->
  Forall entry_not_negative (sim_schedule st) ->
  (sim_period st <= sim_period st')%Z /\
  map period (sim_schedule st') = periods_upto (Z.to_nat (sim_period st')) /\
  Forall entry_not_negative (sim_schedule st').
Proof.
  induction 1 as [st | st st1 st2 Hg Hb Hr IH]; intros Hp Hm Hall.
  - repeat split; auto. lia.
  - unfold sim_guard in Hg. apply andb_true_iff in Hg. destruct Hg as [Hg _].
    destruct (sim_body_entry _ _ _ Hb (above_nonneg 0.0001 _ eq_refl Hg))
      as (e & Hs & Hp1 & He & Hpaid & Hbal).
    destruct IH as (Hle & Hm2 & Hall2).
    + lia.
    + rewrite Hs, Hp1, map_app, Hm. simpl. rewrite He.
      replace (Z.to_nat (sim_period st + 1)) with (S (Z.to_nat (sim_period st)))
        by lia.
      rewrite periods_upto_S. f_equal. f_equal. lia.
    + rewrite Hs. apply Forall_app. split; [exact Hall |].
      constructor; [split; assumption | constructor].
    + repeat split; auto. lia.
Qed.

(** The parts of a successful comparison that concern the sample. *)
Lemma prepay_vs_invest_sample (req : PrepayScenario) (res : prepay_result) :
  prepay_vs_invest req = Ok res ->
  exists ppy rp st,
    sim_setup req (base res) ppy rp /\
    sim_loop (Z.to_nat (sim_cap req)) rp (sim_cap req)
      (sim_start req (base res) ppy) = Ok st /\
    payoff_periods (with_extra res) = sim_period st /\
    schedule_sample (with_extra res) = firstn 6 (sim_schedule st).
Proof.
  intros H.
  destruct (prepay_vs_invest_setup req) as [(b & ppy & rp & Hs) | (e & He & _)];
    [| congruence].
  rewrite (prepay_vs_invest_loop _ _ _ _ Hs) in H.
  destruct (sim_loop _ _ _ _) as [st | e] eqn:Hl; [| discriminate].
  unfold Py.bind at 1, prepay_summary in H.
  destruct (float_of_int _) as [p | e]; [| discriminate].
  unfold Py.bind at 1 in H.
  destruct (truediv p _) as [m | e]; [| discriminate].
  unfold Py.bind at 1 in H.
  destruct (invest_future_value req) as [fv | e]; [| discriminate].
  unfold Py.bind in H. injection H as <-. exists ppy, rp, st. auto.
Qed.

Lemma prepay_vs_invest_schedule (req : PrepayScenario) (res : prepay_result) :
  prepay_vs_invest req = Ok res ->
  exists sched,
    schedule_sample (with_extra res) = firstn 6 sched /\
    (0 <= payoff_periods (with_extra res))%Z /\
    map period sched =
      periods_upto (Z.to_nat (payoff_periods (with_extra res))) /\
    Forall entry_not_negative sched.
Proof.
  intros H.
  destruct (prepay_vs_invest_sample _ _ H) as (ppy & rp & st & _ & Hl & Hp & Hs).
  destruct (sim_loop_ok _ _ _ _ _ Hl) as [Hr _].
  destruct (sim_reach_schedule _ _ _ _ Hr) as (Hle & Hm & Hall);
    try (simpl; solve [lia | reflexivity | constructor]).
  exists (sim_schedule st). rewrite Hp. simpl in Hle. auto.
Qed.

(** X12.  The sample of the accelerated schedule is its first six
    periods, or all of them when the loan is paid off sooner: its entries
    are numbered 1, 2, ... up to the smaller of 6 and [payoff_periods],
    which is never negative. *)
Theorem schedule_sample_first_periods (req : PrepayScenario)
    (res : prepay_result) :
  prepay_vs_invest req = Ok res ->
  (0 <= payoff_periods (with_extra res))%Z /\
  map period (schedule_sample (with_extra res)) =
    periods_upto (Nat.min 6 (Z.to_nat (payoff_periods (with_extra res)))).
Proof.
  intros H.
  destruct (prepay_vs_invest_schedule _ _ H) as (sched & -> & Hp & Hm & _).
  split; [exact Hp |].
  rewrite <- firstn_map, Hm. unfold periods_upto.
  rewrite firstn_map, firstn_seq. reflexivity.
Qed.

Lemma schedule_sample_first_periods_witness :
  exists res,
    prepay_vs_invest
      {| req_principal := 100; req_annual_rate_pct := 0; req_years := 1;
         req_extra_monthly := 0.001; req_payments_per_year := 12;
         req_invest_rate_pct := 0; req_inflation_pct := 0 |} = Ok res /\
    (0 <= payoff_periods (with_extra res))%Z /\
    map period (schedule_sample (with_extra res)) =
      periods_upto (Nat.min 6 (Z.to_nat (payoff_periods (with_extra res)))).
Proof.
  eexists. split; [vm_compute; reflexivity |].
  apply (schedule_sample_first_periods
           {| req_principal := 100; req_annual_rate_pct := 0; req_years := 1;
              req_extra_monthly := 0.001; req_payments_per_year := 12;
              req_invest_rate_pct := 0; req_inflation_pct := 0 |}).
  vm_compute. reflexivity.
Defined.

(** X13.  No entry of the sample shows a negative payment toward
    principal or a negative remaining balance, whatever the request: a
    period is simulated only on a balance above 0.0001 and with a payment
    that covers the interest, and the balance shown is clamped at 0. *)
Theorem sample_amounts_not_negative (req : PrepayScenario)
    (res : prepay_result) :
  prepay_vs_invest req = Ok res ->
  Forall (fun e => (principal_paid e <? 0) = false /\
                   (remaining_balance e <? 0) = false)
    (schedule_sample (with_extra res)).
Proof.
  intros H.
  destruct (prepay_vs_invest_schedule _ _ H) as (sched & -> & _ & _ & Hall).
  apply Forall_forall. intros e He.
  apply (proj1 (Forall_forall _ _) Hall e).
  rewrite <- (firstn_skipn 6 sched). apply in_or_app. left. exact He.
Qed.

Lemma sample_amounts_not_negative_witness :
  exists res,
    prepay_vs_invest
      {| req_principal := 100; req_annual_rate_pct := 100; req_years := 2;
         req_extra_monthly := 0.001; req_payments_per_year := 1;
         req_invest_rate_pct := 0; req_inflation_pct := 0 |} = Ok res /\
    Forall (fun e => (principal_paid e <? 0) = false /\
                     (remaining_balance e <? 0) = false)
      (schedule_sample (with_extra res)).
Proof.
  eexists. split; [vm_compute; reflexivity |].
  apply (sample_amounts_not_negative
           {| req_principal := 100; req_annual_rate_pct := 100; req_years := 2;
              req_extra_monthly := 0.001; req_payments_per_year := 1;
              req_invest_rate_pct := 0; req_inflation_pct := 0 |}).
  vm_compute. reflexivity.
Defined.

Lemma sim_reach_period_le (rp : float) (n_max : Z) (st st' : sim_state) :
  sim_reach rp n_max st st' -> (sim_period st <= sim_period st')%Z.
Proof.
  induction 1 as [st | st st1 st2 Hg Hb Hr IH]; [lia |].
  destruct (sim_body_ok _ _ _ Hb) as (_ & Hp & _). lia.
Qed.

(** X14.  For a request the model admits, [payoff_periods] is 0 exactly
    when the principal is not above 0.0001: such a loan counts as paid
    off before the first period, and any larger one takes at least one
    period. *)
Theorem payoff_periods_zero_iff (req : PrepayScenario) (res : prepay_result) :
  valid_scenario req ->
  prepay_vs_invest req = Ok res ->
  (payoff_periods (with_extra res) = 0%Z <->
   (0.0001 <? req_principal req) = false).
Proof.
  intros (_ & _ & Hy & _ & Hppy & _) H.
  destruct (prepay_vs_invest_sample _ _ H) as (ppy & rp & st & _ & Hl & -> & _).
  assert (Hcap : (0 < sim_cap req)%Z) by (unfold sim_cap; nia).
  destruct (Z.to_nat (sim_cap req)) as [| fuel] eqn:Hf; [lia |].
  simpl in Hl. unfold sim_guard in Hl. simpl in Hl.
  destruct (0.0001 <? req_principal req).
  - replace (0 <? sim_cap req)%Z with true in Hl
      by (symmetry; apply Z.ltb_lt; exact Hcap).
    simpl in Hl.
    destruct (sim_body rp _) as [st1 | e] eqn:Hb; simpl in Hl; [| discriminate].
    destruct (sim_body_ok _ _ _ Hb) as (_ & Hp1 & _). simpl in Hp1.
    destruct (sim_loop_ok _ _ _ _ _ Hl) as [Hr _].
    pose proof (sim_reach_period_le _ _ _ _ Hr). split; [lia | discriminate].
  - simpl in Hl. injection Hl as <-. simpl. tauto.
Qed.

Lemma payoff_periods_zero_iff_witness :
  exists res,
    prepay_vs_invest
      {| req_principal := 0.00005; req_annual_rate_pct := 0; req_years := 1;
         req_extra_monthly := 0; req_payments_per_year := 12;
         req_invest_rate_pct := 0; req_inflation_pct := 0 |} = Ok res /\
    (payoff_periods (with_extra res) = 0%Z <->
     (0.0001 <? 0.00005) = false).
Proof.
  eexists. split; [vm_compute; reflexivity |].
  apply (payoff_periods_zero_iff
           {| req_principal := 0.00005; req_annual_rate_pct := 0;
              req_years := 1; req_extra_monthly := 0;
              req_payments_per_year := 12; req_invest_rate_pct := 0;
              req_inflation_pct := 0 |}).
  - repeat split; simpl; lia.
  - vm_compute. reflexivity.
Defined.

(** *** The loop's exit *)

Lemma Prim2SF_small :
  Prim2SF 0.0001 = S754_finite false 7378697629483821 (-66).
Proof. reflexivity. Qed.

Lemma div_half_even_small (a b : Z) :
  (0 <= a)%Z -> (2 * a < b)%Z -> div_half_even a b = 0%Z.
Proof.
  intros Ha Hb. unfold div_half_even.
  rewrite Z.div_small, Z.mod_small by lia.
  replace (2 * a ?= b)%Z with Lt by (symmetry; apply Z.compare_lt_iff; lia).
  reflexivity.
Qed.

(** A balance of at most 0.0001 shows as zero. *)
Lemma round_small (x : float) :
  (0 <=? x) = true -> (0.0001 <? x) = false -> (Py.round x 2 =? 0) = true.
Proof.
  intros H0 Hs. unfold Py.round.
  destruct (Prim2SF x) as [s | s | | s m e] eqn:E.
  - rewrite eqb_spec, E. destruct s; reflexivity.
  - apply SFnonneg_leb in H0. rewrite E in H0.
    rewrite ltb_spec, Prim2SF_small, E in Hs. destruct s; discriminate.
  - apply SFnonneg_leb in H0. rewrite E in H0. discriminate.
  - apply SFnonneg_leb in H0. rewrite E in H0.
    destruct s; [discriminate |].
    rewrite ltb_spec, Prim2SF_small, E in Hs.
    cbv [SFltb SFcompare] in Hs.
    assert (He : (e <= -66)%Z).
    { destruct (Z.compare_spec (-66) e) as [He | He | He];
        [lia | discriminate | lia]. }
    pose proof (Prim2SF_bounded _ _ _ _ E) as Hb.
    apply bounded_unfold in Hb. destruct Hb as [Hd _].
    pose proof (digits2_bounds m) as [_ Hm].
    assert (Hm53 : (Zpos m < 2 ^ 53)%Z).
    { apply (Z.lt_le_trans _ _ _ Hm). apply Z.pow_le_mono_r; lia. }
    destruct e as [| p | p]; try lia.
    unfold scaled_half_even.
    change (Zpos (10 ^ 2)) with 100%Z.
    rewrite div_half_even_small; [reflexivity | lia |].
    rewrite Z.pow_pos_fold.
    assert (Hp : (2 ^ 66 <= 2 ^ Zpos p)%Z) by (apply Z.pow_le_mono_r; lia).
    change (2 ^ 53)%Z with 9007199254740992%Z in Hm53.
    change (2 ^ 66)%Z with 73786976294838206464%Z in Hp. lia.
Qed.

Lemma shown_paid_off (b : float) :
  (0.0001 <? b) = false -> (0 <? Py.round (Py.max b 0) 2) = false.
Proof.
  intros Hs. unfold Py.max. destruct (b <? 0) eqn:Hneg; [reflexivity |].
  destruct (0 <=? b) eqn:H0.
  - pose proof (round_small b H0 Hs) as Hz. revert Hz.
    rewrite eqb_spec, ltb_spec, Prim2SF_zero.
    sf_cases (Py.round b 2); sf_compare; congruence.
  - assert (Hn : Prim2SF b = S754_nan).
    { revert Hneg H0. rewrite leb_spec, ltb_spec, Prim2SF_zero.
      sf_cases b; sf_compare; congruence. }
    rewrite ltb_spec, Prim2SF_nan_round by exact Hn.
    rewrite Prim2SF_zero. reflexivity.
Qed.

(** With fuel for every period up to the cap, the loop returns only once
    its condition fails. *)
Lemma sim_loop_exit (rp : float) (n_max : Z) (fuel : nat) :
  forall st st',
    (n_max - sim_period st <= Z.of_nat fuel)%Z ->
    sim_loop fuel rp n_max st = Ok st' ->
    sim_guard n_max st' = false.
Proof.
  induction fuel as [| fuel IH]; intros st st' Hf H; simpl in H.
  - injection H as <-. apply sim_guard_cap. lia.
  - destruct (sim_guard n_max st) eqn:Hg; [| injection H as <-; exact Hg].
    destruct (sim_body rp st) as [st1 | e] eqn:B; simpl in H; [| discriminate].
    destruct (sim_body_ok _ _ _ B) as (_ & Hp & _).
    apply (IH st1 st'); [lia | exact H].
Qed.

(** The last entry shows the balance the loop is at. *)
Lemma sim_body_last (rp : float) (st st' : sim_state) :
  sim_body rp st = Ok st' ->
  exists e,
    sim_schedule st' = sim_schedule st ++ [e] /\
    remaining_balance e = Py.round (Py.max (sim_balance st') 0) 2.
Proof.
  unfold sim_body.
  destruct (sim_payment st - sim_balance st * rp <=? 0); [discriminate |].
  intros H. injection H as <-. eexists. split; reflexivity.
Qed.

Lemma sim_reach_last (rp : float) (n_max : Z) (st st' : sim_state) :
  sim_reach rp n_max st st' ->
  st' = st \/
  exists l e,
    sim_schedule st' = l ++ [e] /\
    remaining_balance e = Py.round (Py.max (sim_balance st') 0) 2.
Proof.
  induction 1 as [st | st st1 st2 Hg Hb Hr IH]; [left; reflexivity |].
  right. destruct IH as [-> | IH]; [| exact IH].
  destruct (sim_body_last _ _ _ Hb) as (e & Hs & He). eauto.
Qed.

(** X15.  When the comparison returns with [payoff_periods] below the
    safety cap, the loan is paid off: the state the simulation loop ended
    in, whose period count is [payoff_periods], has a balance that is not
    above 0.0001 (at most 0.0001, or NaN).  If moreover the payoff took
    between one and six periods, so that the sample holds the last period,
    the last entry of the sample shows no balance left. *)
Theorem paid_off_before_cap (req : PrepayScenario) (res : prepay_result) :
  prepay_vs_invest req = Ok res ->
  (payoff_periods (with_extra res) < sim_cap req)%Z ->
  exists ppy rp st,
    sim_setup req (base res) ppy rp /\
    sim_loop (Z.to_nat (sim_cap req)) rp (sim_cap req)
      (sim_start req (base res) ppy) = Ok st /\
    payoff_periods (with_extra res) = sim_period st /\
    (0.0001 <? sim_balance st) = false /\
    ((1 <= payoff_periods (with_extra res) <= 6)%Z ->
     exists l e,
       schedule_sample (with_extra res) = l ++ [e] /\
       (0 <? remaining_balance e) = false).
Proof.
  intros H Hcap.
  destruct (prepay_vs_invest_sample _ _ H)
    as (ppy & rp & st & Hsetup & Hl & Hper & Hs).
  destruct (sim_loop_ok _ _ _ _ _ Hl) as [Hr _].
  assert (Hexit : sim_guard (sim_cap req) st = false).
  { apply (sim_loop_exit rp (sim_cap req) (Z.to_nat (sim_cap req))
             (sim_start req (base res) ppy) st); [simpl; lia | exact Hl]. }
  destruct (sim_reach_schedule _ _ _ _ Hr) as (_ & Hm & _);
    try (simpl; solve [lia | reflexivity | constructor]).
  rewrite Hper in Hcap.
  unfold sim_guard in Hexit. apply andb_false_iff in Hexit.
  destruct Hexit as [Hbal | Hc]; [| apply Z.ltb_ge in Hc; lia].
  exists ppy, rp, st.
  split; [exact Hsetup |]. split; [exact Hl |]. split; [exact Hper |].
  split; [exact Hbal |].
  rewrite Hper. intros Hp.
  destruct (sim_reach_last _ _ _ _ Hr) as [-> | (l & e & Hsched & He)];
    [simpl in Hp; lia |].
  exists l, e. split.
  - rewrite Hs, <- Hsched. apply firstn_all2.
    rewrite <- (length_map period), Hm. unfold periods_upto.
    rewrite length_map, length_seq. lia.
  - rewrite He. apply shown_paid_off, Hbal.
Qed.

Lemma paid_off_before_cap_witness :
  let req :=
    {| req_principal := 100; req_annual_rate_pct := 100; req_years := 2;
       req_extra_monthly := 0.001; req_payments_per_year := 1;
       req_invest_rate_pct := 0; req_inflation_pct := 0 |} in
  exists res,
    prepay_vs_invest req = Ok res /\
    exists ppy rp st,
      sim_setup req (base res) ppy rp /\
      sim_loop (Z.to_nat (sim_cap req)) rp (sim_cap req)
        (sim_start req (base res) ppy) = Ok st /\
      payoff_periods (with_extra res) = sim_period st /\
      (0.0001 <? sim_balance st) = false /\
      ((1 <= payoff_periods (with_extra res) <= 6)%Z ->
       exists l e,
         schedule_sample (with_extra res) = l ++ [e] /\
         (0 <? remaining_balance e) = false).
Proof.
  cbv zeta. eexists. split; [vm_compute; reflexivity |].
  apply (paid_off_before_cap
           {| req_principal := 100; req_annual_rate_pct := 100; req_years := 2;
              req_extra_monthly := 0.001; req_payments_per_year := 1;
              req_invest_rate_pct := 0; req_inflation_pct := 0 |}).
  - vm_compute. reflexivity.
  - vm_compute. reflexivity.
Defined.

End ComparatorSample.

(** ** The quiz *)

Section Quiz.

Local Open Scope Z_scope.

(** The loop marks the questions in order and counts the right ones. *)
Lemma score_loop_spec (answers : answer_sheet) (quiz : list question) :
  forall s fb,
    score_loop quiz answers s fb =
    (s + Z.of_nat (List.length (filter (answered_right answers) quiz)),
     fb ++ map (marked answers) quiz).
Proof.
  induction quiz as [| q rest IH]; intros s fb; simpl.
  - rewrite Z.add_0_r, app_nil_r. reflexivity.
  - rewrite IH, <- app_assoc. unfold marked at 2. fold (answered_right answers q).
    destruct (answered_right answers q); simpl; f_equal; lia.
Qed.

Lemma filter_marked (answers : answer_sheet) (quiz : list question) :
  List.length (filter fb_correct (map (marked answers) quiz)) =
  List.length (filter (answered_right answers) quiz).
Proof.
  induction quiz as [| q rest IH]; simpl; [reflexivity |].
  destruct (answered_right answers q); simpl; rewrite IH; reflexivity.
Qed.

Lemma filter_length_bound {A : Type} (f : A -> bool) (l : list A) :
  (List.length (filter f l) <= List.length l)%nat.
Proof.
  induction l as [| a l IH]; simpl; [lia |]. destruct (f a); simpl; lia.
Qed.

Lemma filter_all {A : Type} (f : A -> bool) (l : list A) :
  List.length (filter f l) = List.length l <-> Forall (fun a => f a = true) l.
Proof.
  induction l as [| a l IH]; simpl.
  - split; auto.
  - pose proof (filter_length_bound f l) as Hb.
    destruct (f a) eqn:Ha; simpl; split.
    + intros H. constructor; [exact Ha | apply IH; lia].
    + intros H. inversion H; subst. f_equal. apply IH. assumption.
    + intros H. lia.
    + intros H. inversion H; subst. congruence.
Qed.

Lemma filter_none {A : Type} (f : A -> bool) (l : list A) :
  List.length (filter f l) = O <-> Forall (fun a => f a = false) l.
Proof.
  induction l as [| a l IH]; simpl.
  - split; auto.
  - destruct (f a) eqn:Ha; simpl; split.
    + discriminate.
    + intros H. inversion H; subst. congruence.
    + intros H. constructor; [exact Ha | apply IH; exact H].
    + intros H. inversion H; subst. apply IH. assumption.
Qed.

Lemma Forall_equiv {A : Type} (P Q : A -> Prop) (l : list A) :
  (forall a, P a <-> Q a) -> (Forall P l <-> Forall Q l).
Proof.
  intros H. split; apply Forall_impl; intros a; apply H.
Qed.

Lemma answered_right_iff (answers : answer_sheet) (q : question) :
  answered_right answers q = true <->
  answers_get answers (q_id q) = Some (q_answer q).
Proof.
  unfold answered_right, choice_eq.
  destruct (answers_get answers (q_id q)) as [c |]; split;
    try discriminate.
  - intros H. apply Z.eqb_eq in H. congruence.
  - intros H. injection H as ->. apply Z.eqb_refl.
Qed.

Lemma score_quiz_of_spec (quiz : list question) (answers : answer_sheet) :
  score_quiz_of quiz answers =
  {| score := Z.of_nat (List.length (filter (answered_right answers) quiz));
     out_of := Z.of_nat (List.length quiz);
     feedback := map (marked answers) quiz |}.
Proof. unfold score_quiz_of. rewrite score_loop_spec. reflexivity. Qed.

Lemma score_quiz_of_counts (quiz : list question) (answers : answer_sheet) :
  let r := score_quiz_of quiz answers in
  score r = Z.of_nat (List.length (filter fb_correct (feedback r))) /\
  out_of r = Z.of_nat (List.length (feedback r)) /\
  0 <= score r <= out_of r /\
  map fb_id (feedback r) = map item_id (get_quiz_of quiz) /\
  Forall2 (fun q e =>
             fb_correct e = answered_right answers q /\
             correct_choice_index e = q_answer q /\
             fb_explanation e = q_explanation q)
    quiz (feedback r).
Proof.
  rewrite score_quiz_of_spec. cbv zeta. cbn [score out_of feedback].
  rewrite filter_marked, length_map.
  pose proof (filter_length_bound (answered_right answers) quiz) as Hb.
  split; [reflexivity |]. split; [reflexivity |]. split; [lia |]. split.
  - unfold get_quiz_of. rewrite !map_map. reflexivity.
  - clear Hb. induction quiz as [| q rest IH]; simpl; constructor; auto.
Qed.

Lemma score_quiz_of_extremes (quiz : list question) (answers : answer_sheet) :
  (score (score_quiz_of quiz answers) = out_of (score_quiz_of quiz answers) <->
   Forall (fun q => answers_get answers (q_id q) = Some (q_answer q)) quiz) /\
  (score (score_quiz_of quiz answers) = 0 <->
   Forall (fun q => answers_get answers (q_id q) <> Some (q_answer q)) quiz).
Proof.
  rewrite score_quiz_of_spec. cbn [score out_of]. split.
  - rewrite Nat2Z.inj_iff, filter_all. apply Forall_equiv.
    intros q. apply answered_right_iff.
  - change 0 with (Z.of_nat O). rewrite Nat2Z.inj_iff, filter_none.
    apply Forall_equiv. intros q.
    rewrite <- answered_right_iff. destruct (answered_right answers q); split;
      congruence.
Qed.

Lemma score_quiz_of_ext (quiz : list question)
    (answers1 answers2 : answer_sheet) :
  Forall (fun q => answers_get answers1 (q_id q) =
                   answers_get answers2 (q_id q)) quiz ->
  score_quiz_of quiz answers1 = score_quiz_of quiz answers2.
Proof.
  intros H. rewrite !score_quiz_of_spec. rewrite Forall_forall in H.
  assert (Hr : forall q, In q quiz ->
                 answered_right answers1 q = answered_right answers2 q).
  { intros q Hq. unfold answered_right. rewrite (H q Hq). reflexivity. }
  rewrite (filter_ext_in _ _ _ Hr).
  rewrite (map_ext_in (marked answers1) (marked answers2) quiz);
    [reflexivity |].
  intros q Hq. unfold marked. rewrite (Hr q Hq). reflexivity.
Qed.

(** X17.  Whatever the answers, the feedback has one entry for each
    question of the quiz, in the order [GET /api/quiz] lists them and with
    the same ids; an entry is marked correct when the sheet gives the
    question's id its keyed choice; the score is the number of entries
    marked correct, [out_of] is the number of questions, and so the score
    lies between 0 and [out_of]. *)
Theorem score_counts_correct_entries (answers : answer_sheet) :
  let r := score_quiz answers in
  score r = Z.of_nat (List.length (filter fb_correct (feedback r))) /\
  out_of r = Z.of_nat (List.length (feedback r)) /\
  0 <= score r <= out_of r /\
  map fb_id (feedback r) = map item_id get_quiz /\
  Forall2 (fun q e =>
             fb_correct e = answered_right answers q /\
             correct_choice_index e = q_answer q /\
             fb_explanation e = q_explanation q)
    QUIZ (feedback r).
Proof. exact (score_quiz_of_counts QUIZ answers). Qed.

(** X18.  The score is full exactly when the sheet gives every question
    its keyed choice, and 0 exactly when it gives none of them theirs; a
    question left out of the sheet counts as wrong. *)
Theorem full_marks_iff_all_right (answers : answer_sheet) :
  (score (score_quiz answers) = out_of (score_quiz answers) <->
   Forall (fun q => answers_get answers (q_id q) = Some (q_answer q)) QUIZ) /\
  (score (score_quiz answers) = 0 <->
   Forall (fun q => answers_get answers (q_id q) <> Some (q_answer q)) QUIZ).
Proof. exact (score_quiz_of_extremes QUIZ answers). Qed.

(** X19.  Only the entries of the sheet under the quiz's own ids count:
    two sheets that agree on those ids get the same score and the same
    feedback, whatever else they hold. *)
Theorem only_quiz_ids_count (answers1 answers2 : answer_sheet) :
  Forall (fun q => answers_get answers1 (q_id q) =
                   answers_get answers2 (q_id q)) QUIZ ->
  score_quiz answers1 = score_quiz answers2.
Proof. exact (score_quiz_of_ext QUIZ answers1 answers2). Qed.

Lemma only_quiz_ids_count_witness :
  score_quiz [("q1"%string, 0); ("q3"%string, 2)] =
  score_quiz [("q9"%string, 0); ("q3"%string, 2); ("q1"%string, 0)].
Proof.
  apply (only_quiz_ids_count [("q1"%string, 0); ("q3"%string, 2)]).
  repeat constructor.
Defined.

End Quiz.
